(** * Pinocchio: skeleton construction, compression and ray queries

    Shallow embedding of [src/Pinocchio/skeleton.cpp] (class [Skeleton] and
    [FileSkeleton]) and of the query interface declared in
    [src/Pinocchio/intersector.h].

    Conventions of the embedding:
    - a C++ [int] is a [Z]; the vectors of the program hold far fewer than
      2^31 entries, so no index arithmetic wraps;
    - a [double] is idealised as a real number ([R]): rounding, overflow
      and NaN are outside the embedding;
    - a [vector<T>] is a [list T]; reading or writing outside its bounds is
      undefined behaviour in C++ and is modelled as failure ([None]);
    - [jointNames] is an associative container from [string] to [int] used
      only through [operator[]], which value-initialises (to 0) and inserts
      a missing key before returning it. *)

From Stdlib Require Import ZArith Reals Lra Lia.
From stdpp Require Import base option list gmap strings sorting.
Open Scope Z_scope.

(** * The program *)

(** ** Geometry *)

(** Modelled from the spec: [PVector3], whose header is not part of the
    sources, is a point of 3D space, three [double]s; the operations below
    are the ones [skeleton.cpp] applies to it, and [length] is the
    Euclidean length. *)
Record PVector3 : Type := mkVec { vx : R; vy : R; vz : R }.

(** [v * d], [v *= d] *)
Definition vscale (v : PVector3) (d : R) : PVector3 :=
  mkVec (vx v * d) (vy v * d) (vz v * d).

(** [a - b] *)
Definition vsub (a b : PVector3) : PVector3 :=
  mkVec (vx a - vx b) (vy a - vy b) (vz a - vz b).

(** [a + b] *)
Definition vadd (a b : PVector3) : PVector3 :=
  mkVec (vx a + vx b) (vy a + vy b) (vz a + vz b).

(** [a * b] on two vectors: the dot product *)
Definition vdot (a b : PVector3) : R :=
  (vx a * vx b + vy a * vy b + vz a * vz b)%R.

(** [v.length()] *)
Definition vlength (v : PVector3) : R := sqrt (vdot v v).

(** ** Vectors indexed by [int] *)

(** [v[i]] as an rvalue *)
Definition at_ {A} (v : list A) (i : Z) : option A :=
  if decide (0 ≤ i) then v !! Z.to_nat i else None.

(** [v[i] = x] *)
Definition set_at {A} (v : list A) (i : Z) (x : A) : option (list A) :=
  if decide (0 ≤ i < Z.of_nat (length v)) then Some (<[Z.to_nat i := x]> v)
  else None.

(** [v[i].push_back(x)] *)
Definition push_at {A} (v : list (list A)) (i : Z) (x : A)
  : option (list (list A)) :=
  l ← at_ v i; set_at v i (l ++ [x]).

(** [v.size()] as an [int] *)
Definition size {A} (v : list A) : Z := Z.of_nat (length v).

(** [m[k]] on the name table: the value found, or 0 after inserting it *)
Definition index_name (m : gmap string Z) (k : string) : Z * gmap string Z :=
  match m !! k with
  | Some i => (i, m)
  | None => (0, <[k := 0]> m)
  end.

(** ** The skeleton *)

Record Graph : Type := mkGraph {
  verts : list PVector3;
  edges : list (list Z)
}.

(** The data members of [class Skeleton].  The class declaration is not
    part of the sources; the types are read off the uses in
    [skeleton.cpp]: [fGraphV] and [cGraphV] have [verts] and [edges],
    [fcFractionV] and [cLengthV] hold [double]s, [cFeetV] and [cFatV] are
    [vector<bool>], the other vectors hold [int]s, and [jointNames] maps
    names to [int]s. *)
Record Skeleton : Type := mkSkeleton {
  fGraphV : Graph;
  fPrevV : list Z;
  fSymV : list Z;
  cGraphV : Graph;
  cPrevV : list Z;
  cSymV : list Z;
  cFeetV : list bool;
  cFatV : list bool;
  cfMapV : list Z;
  fcMapV : list Z;
  fcFractionV : list R;
  cLengthV : list R;
  jointNames : gmap string Z
}.

(** A default-constructed [Skeleton]. *)
Definition emptySkeleton : Skeleton :=
  mkSkeleton (mkGraph [] []) [] [] (mkGraph [] []) [] [] [] [] [] [] [] [] ∅.

Definition with_full (s : Skeleton) (g : Graph) (prev sym : list Z)
    (names : gmap string Z) : Skeleton :=
  mkSkeleton g prev sym (cGraphV s) (cPrevV s) (cSymV s) (cFeetV s) (cFatV s)
    (cfMapV s) (fcMapV s) (fcFractionV s) (cLengthV s) names.

(** [Skeleton::makeJoint] *)
Definition makeJoint (name : string) (pos : PVector3) (previous : string)
    (s : Skeleton) : option Skeleton :=
  let cur := size (fSymV s) in
  let sym := fSymV s ++ [-1] in
  let vs := verts (fGraphV s) ++ [vscale pos (1 / 2)] in
  let es := resize (Z.to_nat (cur + 1)) [] (edges (fGraphV s)) in
  let names := <[name := cur]> (jointNames s) in
  if decide (previous = "") then
    Some (with_full s (mkGraph vs es) (fPrevV s ++ [-1]) sym names)
  else
    let '(prev, names') := index_name names previous in
    es1 ← push_at es cur prev;
    es2 ← push_at es1 prev cur;
    Some (with_full s (mkGraph vs es2) (fPrevV s ++ [prev]) sym names').

(** [Skeleton::makeSymmetric] *)
Definition makeSymmetric (name1 name2 : string) (s : Skeleton)
    : option Skeleton :=
  let '(i1, names1) := index_name (jointNames s) name1 in
  let '(i2, names2) := index_name names1 name2 in
  let '(i1, i2) := if decide (i1 > i2) then (i2, i1) else (i1, i2) in
  sym ← set_at (fSymV s) i2 i1;
  Some (with_full s (fGraphV s) (fPrevV s) sym names2).

(** [Skeleton::setFoot], [Skeleton::setFat] *)
Definition setFoot (name : string) (s : Skeleton) : option Skeleton :=
  let '(i, names) := index_name (jointNames s) name in
  c ← at_ (fcMapV s) i;
  feet ← set_at (cFeetV s) c true;
  Some (mkSkeleton (fGraphV s) (fPrevV s) (fSymV s) (cGraphV s) (cPrevV s)
          (cSymV s) feet (cFatV s) (cfMapV s) (fcMapV s) (fcFractionV s)
          (cLengthV s) names).

Definition setFat (name : string) (s : Skeleton) : option Skeleton :=
  let '(i, names) := index_name (jointNames s) name in
  c ← at_ (fcMapV s) i;
  fat ← set_at (cFatV s) c true;
  Some (mkSkeleton (fGraphV s) (fPrevV s) (fSymV s) (cGraphV s) (cPrevV s)
          (cSymV s) (cFeetV s) fat (cfMapV s) (fcMapV s) (fcFractionV s)
          (cLengthV s) names).

(** ** Loops *)

(** [for(i = lo; i < lo + cnt; ++i) body], the bound being fixed while the
    loop runs. *)
Fixpoint for_loop {St} (body : Z → St → option St) (i : Z) (cnt : nat)
    (st : St) : option St :=
  match cnt with
  | O => Some st
  | S k => st' ← body i st; for_loop body (i + 1) k st'
  end.

(** ** Compression *)

(** Body of the first loop of [initCompressed]; the state is
    [(fcMapV, cfMapV)]. *)
Definition map_body (es : list (list Z)) (i : Z) (st : list Z * list Z)
    : option (list Z * list Z) :=
  let '(fc, cf) := st in
  e ← at_ es i;
  if decide (size e = 2 ∧ i ≠ 0) then Some (fc, cf)
  else fc' ← set_at fc i (size cf); Some (fc', cf ++ [i]).

(** [while(fcMapV[curPrev] < 0) curPrev = fPrevV[curPrev];] A walk over
    [fuel] joints that has not stopped revisits a joint and never stops. *)
Fixpoint find_retained (prev fc : list Z) (fuel : nat) (curPrev : Z)
    : option Z :=
  match fuel with
  | O => None
  | S f =>
      m ← at_ fc curPrev;
      if decide (m < 0) then p ← at_ prev curPrev; find_retained prev fc f p
      else Some curPrev
  end.

(** Body of the second loop; the state is [(cGraphV.verts, cSymV, cPrevV)]. *)
Definition link_body (s : Skeleton) (fc cf : list Z) (i : Z)
    (st : list PVector3 * list Z * list Z)
    : option (list PVector3 * list Z * list Z) :=
  let '(cv, csym, cprev) := st in
  c ← at_ cf i;
  v ← at_ (verts (fGraphV s)) c;
  q ← at_ (fSymV s) c;
  csym' ← (if decide (0 ≤ q) then m ← at_ fc q; set_at csym i m
           else Some csym);
  cprev' ← (if decide (0 < i) then
              p ← at_ (fPrevV s) c;
              a ← find_retained (fPrevV s) fc (length (fPrevV s)) p;
              m ← at_ fc a;
              set_at cprev i m
            else Some cprev);
  Some (cv ++ [v], csym', cprev').

(** Body of the third loop; the state is [cGraphV.edges]. *)
Definition edge_body (cprev : list Z) (i : Z) (ce : list (list Z))
    : option (list (list Z)) :=
  p ← at_ cprev i;
  ce1 ← push_at ce i p;
  push_at ce1 p i.

(** [lengths[k] = v] on the local [hash_map<int, double>]: the table keeps
    one binding per key. *)
Definition assign (lengths : list (Z * R)) (k : Z) (v : R) : list (Z * R) :=
  filter (λ kv, kv.1 ≠ k) lengths ++ [(k, v)].

(** The [do ... while(fcMapV[cur] == -1)] walk of the fourth loop; the
    state is [(lengths, cLengthV)].  [lengths[cur]] is read back right
    after it is assigned. *)
Fixpoint measure_chain (s : Skeleton) (fc : list Z) (i : Z) (fuel : nat)
    (cur : Z) (lengths : list (Z * R)) (cl : list R)
    : option (list (Z * R) * list R) :=
  match fuel with
  | O => None
  | S f =>
      p ← at_ (fPrevV s) cur;
      vc ← at_ (verts (fGraphV s)) cur;
      vp ← at_ (verts (fGraphV s)) p;
      let len := vlength (vsub vc vp) in
      let lengths' := assign lengths cur len in
      t ← at_ cl i;
      cl' ← set_at cl i (t + len)%R;
      m ← at_ fc p;
      if decide (m = -1) then measure_chain s fc i f p lengths' cl'
      else Some (lengths', cl')
  end.

(** The loop over the bindings of [lengths].  The keys are pairwise
    distinct, so the order in which the table is traversed does not
    matter.  The quotient is that of the reals: it stands for the
    program's division when [cLengthV[i]] is not zero.  On a bone of
    length zero the program divides [0.] by [0.] and stores a NaN, which
    no real number stands for; the properties below that speak of stored
    fractions are stated for bones whose length is not zero. *)
Fixpoint store_fractions (i : Z) (cl : list R) (lengths : list (Z * R))
    (fr : list R) : option (list R) :=
  match lengths with
  | [] => Some fr
  | (k, v) :: rest =>
      t ← at_ cl i;
      fr' ← set_at fr k (v / t)%R;
      store_fractions i cl rest fr'
  end.

(** Body of the fourth loop; the state is [(fcFractionV, cLengthV)]. *)
Definition measure_body (s : Skeleton) (fc cf : list Z) (i : Z)
    (st : list R * list R) : option (list R * list R) :=
  let '(fr, cl) := st in
  cur ← at_ cf i;
  '(lengths, cl') ← measure_chain s fc i (length (fPrevV s)) cur [] cl;
  fr' ← store_fractions i cl' lengths fr;
  Some (fr', cl').

(** [Skeleton::initCompressed] *)
Definition initCompressed (s : Skeleton) : option Skeleton :=
  let n := length (fPrevV s) in
  let fc0 := resize n (-1) (fcMapV s) in
  let fr0 := resize n (-1)%R (fcFractionV s) in
  '(fc, cf) ← for_loop (map_body (edges (fGraphV s))) 0 n (fc0, cfMapV s);
  let m := length cf in
  let cprev0 := resize m (-1) (cPrevV s) in
  let csym0 := resize m (-1) (cSymV s) in
  let ce0 := resize m [] (edges (cGraphV s)) in
  let feet := replicate (length cprev0) false in
  let fat := replicate (length cprev0) false in
  '(cv, csym, cprev) ←
    for_loop (link_body s fc cf) 0 m (verts (cGraphV s), csym0, cprev0);
  ce ← for_loop (edge_body cprev) 1 (length cprev - 1) ce0;
  let cl0 := resize (length cprev) 0%R (cLengthV s) in
  '(fr, cl) ←
    for_loop (measure_body s fc cf) 1 (length cprev - 1) (fr0, cl0);
  Some (mkSkeleton (fGraphV s) (fPrevV s) (fSymV s) (mkGraph cv ce) cprev
          csym feet fat cf fc fr cl (jointNames s)).

(** ** Scaling *)

(** Body of the first loop of [scale]; the state is [fGraphV.verts]. *)
Definition scale_full_body (factor : R) (i : Z) (fv : list PVector3)
    : option (list PVector3) :=
  v ← at_ fv i; set_at fv i (vscale v factor).

(** Body of the second loop; the state is [(cGraphV.verts, cLengthV)]. *)
Definition scale_comp_body (factor : R) (i : Z)
    (st : list PVector3 * list R) : option (list PVector3 * list R) :=
  let '(cv, cl) := st in
  v ← at_ cv i;
  cv' ← set_at cv i (vscale v factor);
  l ← at_ cl i;
  cl' ← set_at cl i (l * factor)%R;
  Some (cv', cl').

(** [Skeleton::scale] *)
Definition scale (factor : R) (s : Skeleton) : option Skeleton :=
  fv ← for_loop (scale_full_body factor) 0 (length (verts (fGraphV s)))
        (verts (fGraphV s));
  '(cv, cl) ← for_loop (scale_comp_body factor) 0
        (length (verts (cGraphV s))) (verts (cGraphV s), cLengthV s);
  Some (mkSkeleton (mkGraph fv (edges (fGraphV s))) (fPrevV s) (fSymV s)
          (mkGraph cv (edges (cGraphV s))) (cPrevV s) (cSymV s) (cFeetV s)
          (cFatV s) (cfMapV s) (fcMapV s) (fcFractionV s) cl (jointNames s)).

(** ** The built-in human template *)

(** A decimal literal such as [0.15], read as [15 / 100]. *)
Definition dec (n : Z) (d : positive) : R := (IZR n / IZR (Zpos d))%R.

(** A constructor body: the calls run in order on the object, from its
    default-constructed state. *)
Definition construct (calls : list (Skeleton → option Skeleton))
    : option Skeleton :=
  foldl (λ acc call, acc ≫= call) (Some emptySkeleton) calls.

(** The builder calls of a template, before compression. *)
Inductive call : Type :=
  | MakeJoint (name : string) (pos : PVector3) (previous : string)
  | MakeSymmetric (name1 name2 : string).

Definition exec (c : call) : Skeleton → option Skeleton :=
  match c with
  | MakeJoint name pos previous => makeJoint name pos previous
  | MakeSymmetric name1 name2 => makeSymmetric name1 name2
  end.

(** The [makeJoint] and [makeSymmetric] calls of [HumanSkeleton], in the
    order of the constructor. *)
Definition human_calls : list call := [
  MakeJoint "shoulders" (mkVec 0 (dec 5 10) 0) "";
  MakeJoint "back" (mkVec 0 (dec 15 100) 0) "shoulders";
  MakeJoint "hips" (mkVec 0 0 0) "back";
  MakeJoint "head" (mkVec 0 (dec 7 10) 0) "shoulders";
  MakeJoint "lthigh" (mkVec (dec (-1) 10) 0 0) "hips";
  MakeJoint "lknee" (mkVec (dec (-15) 100) (dec (-35) 100) 0) "lthigh";
  MakeJoint "lankle" (mkVec (dec (-15) 100) (dec (-8) 10) 0) "lknee";
  MakeJoint "lfoot" (mkVec (dec (-15) 100) (dec (-8) 10) (dec 1 10)) "lankle";
  MakeJoint "rthigh" (mkVec (dec 1 10) 0 0) "hips";
  MakeJoint "rknee" (mkVec (dec 15 100) (dec (-35) 100) 0) "rthigh";
  MakeJoint "rankle" (mkVec (dec 15 100) (dec (-8) 10) 0) "rknee";
  MakeJoint "rfoot" (mkVec (dec 15 100) (dec (-8) 10) (dec 1 10)) "rankle";
  MakeJoint "lshoulder" (mkVec (dec (-2) 10) (dec 5 10) 0) "shoulders";
  MakeJoint "lelbow" (mkVec (dec (-4) 10) (dec 25 100) (dec 75 1000)) "lshoulder";
  MakeJoint "lhand" (mkVec (dec (-6) 10) 0 (dec 15 100)) "lelbow";
  MakeJoint "rshoulder" (mkVec (dec 2 10) (dec 5 10) 0) "shoulders";
  MakeJoint "relbow" (mkVec (dec 4 10) (dec 25 100) (dec 75 1000)) "rshoulder";
  MakeJoint "rhand" (mkVec (dec 6 10) 0 (dec 15 100)) "relbow";
  MakeSymmetric "lthigh" "rthigh";
  MakeSymmetric "lknee" "rknee";
  MakeSymmetric "lankle" "rankle";
  MakeSymmetric "lfoot" "rfoot";
  MakeSymmetric "lshoulder" "rshoulder";
  MakeSymmetric "lelbow" "relbow";
  MakeSymmetric "lhand" "rhand"
].

(** [HumanSkeleton::HumanSkeleton] *)
Definition HumanSkeleton : option Skeleton :=
  construct ((exec <$> human_calls) ++
             [initCompressed; setFoot "lfoot"; setFoot "rfoot";
              setFat "hips"; setFat "shoulders"; setFat "head"]).

(** ** The other built-in templates *)

(** The [makeJoint] and [makeSymmetric] calls of [QuadSkeleton], in the
    order of the constructor. *)
Definition quad_calls : list call := [
  MakeJoint "shoulders" (mkVec 0 0 (dec 5 10)) "";
  MakeJoint "back" (mkVec 0 0 0) "shoulders";
  MakeJoint "hips" (mkVec 0 0 (dec (-5) 10)) "back";
  MakeJoint "neck" (mkVec 0 (dec 2 10) (dec 63 100)) "shoulders";
  MakeJoint "head" (mkVec 0 (dec 2 10) (dec 9 10)) "neck";
  MakeJoint "lthigh" (mkVec (dec (-15) 100) 0 (dec (-5) 10)) "hips";
  MakeJoint "lhknee" (mkVec (dec (-2) 10) (dec (-4) 10) (dec (-5) 10)) "lthigh";
  MakeJoint "lhfoot" (mkVec (dec (-2) 10) (dec (-8) 10) (dec (-5) 10)) "lhknee";
  MakeJoint "rthigh" (mkVec (dec 15 100) 0 (dec (-5) 10)) "hips";
  MakeJoint "rhknee" (mkVec (dec 2 10) (dec (-4) 10) (dec (-5) 10)) "rthigh";
  MakeJoint "rhfoot" (mkVec (dec 2 10) (dec (-8) 10) (dec (-5) 10)) "rhknee";
  MakeJoint "lshoulder" (mkVec (dec (-2) 10) 0 (dec 5 10)) "shoulders";
  MakeJoint "lfknee" (mkVec (dec (-2) 10) (dec (-4) 10) (dec 5 10)) "lshoulder";
  MakeJoint "lffoot" (mkVec (dec (-2) 10) (dec (-8) 10) (dec 5 10)) "lfknee";
  MakeJoint "rshoulder" (mkVec (dec 2 10) 0 (dec 5 10)) "shoulders";
  MakeJoint "rfknee" (mkVec (dec 2 10) (dec (-4) 10) (dec 5 10)) "rshoulder";
  MakeJoint "rffoot" (mkVec (dec 2 10) (dec (-8) 10) (dec 5 10)) "rfknee";
  MakeJoint "tail" (mkVec 0 0 (dec (-7) 10)) "hips";
  MakeSymmetric "lthigh" "rthigh";
  MakeSymmetric "lhknee" "rhknee";
  MakeSymmetric "lhfoot" "rhfoot";
  MakeSymmetric "lshoulder" "rshoulder";
  MakeSymmetric "lfknee" "rfknee";
  MakeSymmetric "lffoot" "rffoot"
].

(** [QuadSkeleton::QuadSkeleton] *)
Definition QuadSkeleton : option Skeleton :=
  construct ((exec <$> quad_calls) ++
             [initCompressed; setFoot "lhfoot"; setFoot "rhfoot";
              setFoot "lffoot"; setFoot "rffoot"; setFat "hips";
              setFat "shoulders"; setFat "head"]).

(** The [makeJoint] and [makeSymmetric] calls of [HorseSkeleton], in the
    order of the constructor. *)
Definition horse_calls : list call := [
  MakeJoint "shoulders" (mkVec 0 0 (dec 5 10)) "";
  MakeJoint "back" (mkVec 0 0 0) "shoulders";
  MakeJoint "hips" (mkVec 0 0 (dec (-5) 10)) "back";
  MakeJoint "neck" (mkVec 0 (dec 2 10) (dec 63 100)) "shoulders";
  MakeJoint "head" (mkVec 0 (dec 2 10) (dec 9 10)) "neck";
  MakeJoint "lthigh" (mkVec (dec (-15) 100) 0 (dec (-5) 10)) "hips";
  MakeJoint "lhknee" (mkVec (dec (-2) 10) (dec (-2) 10) (dec (-45) 100)) "lthigh";
  MakeJoint "lhheel" (mkVec (dec (-2) 10) (dec (-4) 10) (dec (-5) 10)) "lhknee";
  MakeJoint "lhfoot" (mkVec (dec (-2) 10) (dec (-8) 10) (dec (-5) 10)) "lhheel";
  MakeJoint "rthigh" (mkVec (dec 15 100) 0 (dec (-5) 10)) "hips";
  MakeJoint "rhknee" (mkVec (dec 2 10) (dec (-2) 10) (dec (-45) 100)) "rthigh";
  MakeJoint "rhheel" (mkVec (dec 2 10) (dec (-4) 10) (dec (-5) 10)) "rhknee";
  MakeJoint "rhfoot" (mkVec (dec 2 10) (dec (-8) 10) (dec (-5) 10)) "rhheel";
  MakeJoint "lshoulder" (mkVec (dec (-2) 10) 0 (dec 5 10)) "shoulders";
  MakeJoint "lfknee" (mkVec (dec (-2) 10) (dec (-4) 10) (dec 5 10)) "lshoulder";
  MakeJoint "lffoot" (mkVec (dec (-2) 10) (dec (-8) 10) (dec 5 10)) "lfknee";
  MakeJoint "rshoulder" (mkVec (dec 2 10) 0 (dec 5 10)) "shoulders";
  MakeJoint "rfknee" (mkVec (dec 2 10) (dec (-4) 10) (dec 5 10)) "rshoulder";
  MakeJoint "rffoot" (mkVec (dec 2 10) (dec (-8) 10) (dec 5 10)) "rfknee";
  MakeJoint "tail" (mkVec 0 0 (dec (-7) 10)) "hips";
  MakeSymmetric "lthigh" "rthigh";
  MakeSymmetric "lhknee" "rhknee";
  MakeSymmetric "lhheel" "rhheel";
  MakeSymmetric "lhfoot" "rhfoot";
  MakeSymmetric "lshoulder" "rshoulder";
  MakeSymmetric "lfknee" "rfknee";
  MakeSymmetric "lffoot" "rffoot"
].

(** [HorseSkeleton::HorseSkeleton] *)
Definition HorseSkeleton : option Skeleton :=
  construct ((exec <$> horse_calls) ++
             [initCompressed; setFoot "lhfoot"; setFoot "rhfoot";
              setFoot "lffoot"; setFoot "rffoot"; setFat "hips";
              setFat "shoulders"; setFat "head"]).

(** The [makeJoint] and [makeSymmetric] calls of [CentaurSkeleton], in the
    order of the constructor. *)
Definition centaur_calls : list call := [
  MakeJoint "shoulders" (mkVec 0 0 (dec 5 10)) "";
  MakeJoint "back" (mkVec 0 0 0) "shoulders";
  MakeJoint "hips" (mkVec 0 0 (dec (-5) 10)) "back";
  MakeJoint "hback" (mkVec 0 (dec 25 100) (dec 5 10)) "shoulders";
  MakeJoint "hshoulders" (mkVec 0 (dec 5 10) (dec 5 10)) "hback";
  MakeJoint "head" (mkVec 0 (dec 7 10) (dec 5 10)) "hshoulders";
  MakeJoint "lthigh" (mkVec (dec (-15) 100) 0 (dec (-5) 10)) "hips";
  MakeJoint "lhknee" (mkVec (dec (-2) 10) (dec (-4) 10) (dec (-45) 100)) "lthigh";
  MakeJoint "lhfoot" (mkVec (dec (-2) 10) (dec (-8) 10) (dec (-5) 10)) "lhknee";
  MakeJoint "rthigh" (mkVec (dec 15 100) 0 (dec (-5) 10)) "hips";
  MakeJoint "rhknee" (mkVec (dec 2 10) (dec (-4) 10) (dec (-45) 100)) "rthigh";
  MakeJoint "rhfoot" (mkVec (dec 2 10) (dec (-8) 10) (dec (-5) 10)) "rhknee";
  MakeJoint "lshoulder" (mkVec (dec (-2) 10) 0 (dec 5 10)) "shoulders";
  MakeJoint "lfknee" (mkVec (dec (-2) 10) (dec (-4) 10) (dec 5 10)) "lshoulder";
  MakeJoint "lffoot" (mkVec (dec (-2) 10) (dec (-8) 10) (dec 5 10)) "lfknee";
  MakeJoint "rshoulder" (mkVec (dec 2 10) 0 (dec 5 10)) "shoulders";
  MakeJoint "rfknee" (mkVec (dec 2 10) (dec (-4) 10) (dec 5 10)) "rshoulder";
  MakeJoint "rffoot" (mkVec (dec 2 10) (dec (-8) 10) (dec 5 10)) "rfknee";
  MakeJoint "hlshoulder" (mkVec (dec (-2) 10) (dec 5 10) (dec 5 10)) "hshoulders";
  MakeJoint "lelbow" (mkVec (dec (-4) 10) (dec 25 100) (dec 575 1000)) "hlshoulder";
  MakeJoint "lhand" (mkVec (dec (-6) 10) 0 (dec 65 100)) "lelbow";
  MakeJoint "hrshoulder" (mkVec (dec 2 10) (dec 5 10) (dec 5 10)) "hshoulders";
  MakeJoint "relbow" (mkVec (dec 4 10) (dec 25 100) (dec 575 1000)) "hrshoulder";
  MakeJoint "rhand" (mkVec (dec 6 10) 0 (dec 65 100)) "relbow";
  MakeJoint "tail" (mkVec 0 0 (dec (-7) 10)) "hips";
  MakeSymmetric "lthigh" "rthigh";
  MakeSymmetric "lhknee" "rhknee";
  MakeSymmetric "lhheel" "rhheel";
  MakeSymmetric "lhfoot" "rhfoot";
  MakeSymmetric "lshoulder" "rshoulder";
  MakeSymmetric "lfknee" "rfknee";
  MakeSymmetric "lffoot" "rffoot";
  MakeSymmetric "hlshoulder" "hrshoulder";
  MakeSymmetric "lelbow" "relbow";
  MakeSymmetric "lhand" "rhand"
].

(** [CentaurSkeleton::CentaurSkeleton] *)
Definition CentaurSkeleton : option Skeleton :=
  construct ((exec <$> centaur_calls) ++
             [initCompressed; setFoot "lhfoot"; setFoot "rhfoot";
              setFoot "lffoot"; setFoot "rffoot"; setFat "hips";
              setFat "shoulders"; setFat "hshoulders"; setFat "head"]).

(** ** Skeletons read from a file *)

Section FileSkeleton.

(** [sscanf(word, "%lf", &x)] of the C library: the number read from the
    word, if the word starts with one. *)
Variable scan_lf : string → option R.

(** A default-constructed [PVector3]: the value a coordinate keeps when
    [sscanf] reads no number. *)
Variable PVector3_default : PVector3.

Definition scanned (word : string) (old : R) : R :=
  default old (scan_lf word).

(** The point [p] that the loop body reads from a line of at least five
    words. *)
Definition parsed_point (line : list string) : option PVector3 :=
  match line with
  | _ :: w1 :: w2 :: w3 :: _ :: _ =>
      Some (mkVec (scanned w1 (vx PVector3_default))
                  (scanned w2 (vy PVector3_default))
                  (scanned w3 (vz PVector3_default)))
  | _ => None
  end.

(** The body of the [while(!strm.eof())] loop on one result of
    [readWords]. *)
Definition read_joint (line : list string) (s : Skeleton)
    : option Skeleton :=
  match line with
  | name :: w1 :: w2 :: w3 :: w4 :: _ =>
      let p := mkVec (scanned w1 (vx PVector3_default))
                     (scanned w2 (vy PVector3_default))
                     (scanned w3 (vz PVector3_default)) in
      let previous := if decide (w4 = "-1") then "" else w4 in
      makeJoint name (vscale p 2) previous s
  | _ => Some s
  end.

Definition read_joints (lines : list (list string)) (s : Skeleton)
    : option Skeleton :=
  foldl (λ acc line, acc ≫= read_joint line) (Some s) lines.

(** [FileSkeleton::FileSkeleton].  The file is [None] when the stream
    cannot be opened and otherwise the successive results of
    [readWords] up to the end of the file; the first component of the
    result is what is written to [Debugging::out()]. *)
Definition FileSkeleton (filename : string)
    (file : option (list (list string))) : list string * option Skeleton :=
  match file with
  | None => (["Error opening file " +:+ filename], Some emptySkeleton)
  | Some lines => ([], read_joints lines emptySkeleton ≫= initCompressed)
  end.

End FileSkeleton.

(** ** Ray queries against a mesh *)

(** Modelled from the spec: the types [PVector2], [Rect2] and [Mesh] come
    from headers that are not part of the sources.  A rectangle is given
    by two corners; a mesh supplies vertex positions and triangle index
    triples. *)
Record PVector2 : Type := mkVec2 { px : R; py : R }.

Record Rect2 : Type := mkRect2 { rect_lo : PVector2; rect_hi : PVector2 }.

Record Mesh : Type := mkMesh {
  mesh_vertices : list PVector3;
  mesh_triangles : list (Z * Z * Z)
}.

(** The members of [class Intersector]. *)
Record Intersector : Type := mkIntersector {
  mesh : Mesh;
  dir : PVector3;
  v1 : PVector3;
  v2 : PVector3;
  bounds : Rect2;
  points : list PVector2;
  sNormals : list PVector3;
  triangles : list (list Z)
}.

#[global] Instance Rle_decision (x y : R) : Decision (x <= y)%R :=
  Rle_dec x y.

(** Modelled from the spec: membership in the bounding rectangle, whose
    definition ([Rect2::contains]) is not part of the sources; a point on
    an edge of the rectangle counts as inside. *)
Definition rect_contains (r : Rect2) (p : PVector2) : bool :=
  bool_decide ((px (rect_lo r) <= px p)%R ∧ (px p <= px (rect_hi r))%R ∧
               (py (rect_lo r) <= py p)%R ∧ (py p <= py (rect_hi r))%R).

(** Modelled from the spec: the signed distance of [q] from [pt] along the
    query direction, which the sort of [Intersector::intersect] goes by;
    it is measured in units of the length of [dir]. *)
Definition signed_distance (d pt q : PVector3) : R := vdot (vsub q pt) d.

Definition nearer (d pt : PVector3) : relation (PVector3 * Z) :=
  λ a b, (signed_distance d pt a.1 <= signed_distance d pt b.1)%R.

Section Query.

(** Declared in [intersector.h], defined elsewhere: the grid cell of a
    projected point, as an index into [triangles]. *)
Variable getIndex : Intersector → PVector2 → Z.

(** The two tests made on a candidate triangle, which the sources do not
    contain: whether the projected point lies in the projected triangle,
    and the parameter along [dir] at which the ray meets the plane of
    the triangle, computed from the scaled normal; there is none when
    the plane is parallel, or nearly so, to [dir]. *)
Variable inside_triangle : Intersector → Z → PVector2 → bool.
Variable ray_parameter : Intersector → Z → PVector3 → option R.

(** Modelled from the spec: the hit on triangle [t], part of the missing
    body of [Intersector::intersect]; a hit is a point of the ray through
    [pt] in the direction [dir]. *)
Definition hit (I : Intersector) (pt : PVector3) (t : Z)
    : option (PVector3 * Z) :=
  if inside_triangle I t (mkVec2 (vdot pt (v1 I)) (vdot pt (v2 I))) then
    r ← ray_parameter I t pt; Some (vadd pt (vscale (dir I) r), t)
  else None.

(** Modelled from the spec: the candidates of a query, part of the
    missing body of [Intersector::intersect]; they are the triangles
    listed in the grid cell of the projected point, and there are none
    when the point projects outside the bounding rectangle. *)
Definition candidates (I : Intersector) (pt : PVector3) : list Z :=
  let pt2 := mkVec2 (vdot pt (v1 I)) (vdot pt (v2 I)) in
  if rect_contains (bounds I) pt2 then
    default [] (at_ (triangles I) (getIndex I pt2))
  else [].

(** Modelled from the spec: [Intersector::intersect], of which the
    sources hold only the declaration.  The hits on the candidate
    triangles are collected and sorted by signed distance along the
    direction from the point; the second component is what is stored in
    [outIndices] when the caller supplies it. *)
Definition intersect (I : Intersector) (pt : PVector3)
    : list PVector3 * list Z :=
  let sorted :=
    merge_sort (nearer (dir I) pt) (omap (hit I pt) (candidates I pt)) in
  (sorted.*1, sorted.*2).

End Query.

(** * Specification *)

(** ** The invariant of the full skeleton *)

(** The parent of a joint, its rest position, and the length of the segment
    that joins it to its parent; the default values stand for indices that
    name no joint. *)
Definition parent (s : Skeleton) (i : Z) : Z := default (-1) (at_ (fPrevV s) i).
Definition vert (s : Skeleton) (i : Z) : PVector3 :=
  default (mkVec 0 0 0) (at_ (verts (fGraphV s)) i).
Definition seglen (s : Skeleton) (i : Z) : R :=
  vlength (vsub (vert s i) (vert s (parent s i))).

Definition children (prev : list Z) (i : Z) : list Z :=
  filter (λ c, at_ prev c = Some i) (seqZ 0 (size prev)).

(** No compressed data has been computed yet. *)
Definition fresh (s : Skeleton) : Prop :=
  cGraphV s = mkGraph [] [] ∧ cPrevV s = [] ∧ cSymV s = [] ∧
  cfMapV s = [] ∧ fcMapV s = [] ∧ fcFractionV s = [] ∧ cLengthV s = [].

(** The full skeleton is a tree rooted at joint 0 in which a parent comes
    before its children, the adjacency lists hold the parent and the
    children of each joint, and every stored index names a joint. *)
Record full_ok (s : Skeleton) : Prop := mk_full_ok {
  ok_verts : size (verts (fGraphV s)) = size (fPrevV s);
  ok_edges : size (edges (fGraphV s)) = size (fPrevV s);
  ok_syms : size (fSymV s) = size (fPrevV s);
  ok_root : ∀ p, at_ (fPrevV s) 0 = Some p → p = -1;
  ok_prev : ∀ i p, 0 < i → at_ (fPrevV s) i = Some p → 0 ≤ p < i;
  ok_deg : ∀ i e, at_ (edges (fGraphV s)) i = Some e →
      size e = (if decide (i = 0) then 0 else 1) + size (children (fPrevV s) i);
  ok_sym : ∀ i q, at_ (fSymV s) i = Some q → -1 ≤ q < size (fPrevV s);
  ok_names : ∀ k i, jointNames s !! k = Some i → 0 ≤ i < size (fPrevV s);
  ok_fresh : fresh s
}.

(** The calls that keep the joints a tree rooted at joint 0: the first
    joint names no parent, every later joint names a parent other than
    itself, and symmetry is declared between joints once there are some. *)
Definition admissible (s : Skeleton) (c : call) : bool :=
  match c with
  | MakeJoint name _ previous =>
      if decide (fPrevV s = []) then bool_decide (previous = "")
      else bool_decide (previous ≠ "" ∧ previous ≠ name)
  | MakeSymmetric _ _ => bool_decide (fPrevV s ≠ [])
  end.

Fixpoint follows_contract (s : Skeleton) (cs : list call) : bool :=
  match cs with
  | [] => true
  | c :: cs' =>
      admissible s c &&
      match exec c s with
      | Some s' => follows_contract s' cs'
      | None => false
      end
  end.

Definition exec_all (cs : list call) (s : Skeleton) : option Skeleton :=
  foldl (λ acc call, acc ≫= call) (Some s) (exec <$> cs).

(** ** Compression: which joints are kept *)

(** A joint is retained when it is the root or when its adjacency list in
    the full graph does not have exactly two entries. *)
Definition retained (es : list (list Z)) (i : Z) : Prop :=
  i = 0 ∨ size <$> at_ es i ≠ Some 2.

#[global] Instance retained_dec es i : Decision (retained es i).
Proof. unfold retained. apply _. Defined.

(** The number of retained joints below joint [i]. *)
Definition rank (es : list (list Z)) (i : Z) : Z :=
  size (filter (retained es) (seqZ 0 i)).

Definition fc_spec (es : list (list Z)) (n : Z) : list Z :=
  (λ i, if decide (retained es i) then rank es i else -1) <$> seqZ 0 n.

Definition cf_spec (es : list (list Z)) (n : Z) : list Z :=
  filter (retained es) (seqZ 0 n).

(** ** Chains of collapsed joints *)

(** [chain s c l a]: walking up the parents from joint [c], [l] lists [c]
    and the collapsed joints passed on the way, and [a], the parent of the
    last of them, is the first retained joint that is met. *)
Inductive chain (s : Skeleton) : Z → list Z → Z → Prop :=
  | chain_stop c p :
      at_ (fPrevV s) c = Some p → 0 ≤ p →
      retained (edges (fGraphV s)) p →
      chain s c [c] p
  | chain_skip c p l a :
      at_ (fPrevV s) c = Some p →
      ¬ retained (edges (fGraphV s)) p →
      chain s p l a →
      chain s c (c :: l) a.

(** The third loop. *)
Definition has_edge (ce : list (list Z)) (j p : Z) : Prop :=
  ∃ e, at_ ce j = Some e ∧ p ∈ e.

(** ** Lengths and fractions *)

Definition Rsum (l : list R) : R := foldl Rplus 0%R l.

(** [climb s c k]: joint [k] is [c] or a collapsed joint reached from [c]
    through collapsed joints only. *)
Inductive climb (s : Skeleton) (c : Z) : Z → Prop :=
  | climb_here : climb s c c
  | climb_up k p :
      climb s c k → at_ (fPrevV s) k = Some p →
      ¬ retained (edges (fGraphV s)) p → climb s c p.

(** ** What compression computes *)

Record compressed (s s' : Skeleton) : Prop := mk_compressed {
  cp_full : fGraphV s' = fGraphV s ∧ fPrevV s' = fPrevV s ∧
            fSymV s' = fSymV s ∧ jointNames s' = jointNames s;
  cp_fc : fcMapV s' = fc_spec (edges (fGraphV s)) (size (fPrevV s));
  cp_cf : cfMapV s' = cf_spec (edges (fGraphV s)) (size (fPrevV s));
  cp_verts : verts (cGraphV s') = vert s <$> cfMapV s';
  cp_sizes : size (cPrevV s') = size (cfMapV s') ∧
             size (cSymV s') = size (cfMapV s') ∧
             size (edges (cGraphV s')) = size (cfMapV s') ∧
             size (cLengthV s') = size (cfMapV s') ∧
             size (fcFractionV s') = size (fPrevV s);
  cp_tags : cFeetV s' = replicate (length (cfMapV s')) false ∧
            cFatV s' = replicate (length (cfMapV s')) false;
  cp_root : 0 < size (fPrevV s) →
            at_ (cPrevV s') 0 = Some (-1) ∧
            at_ (fcFractionV s') 0 = Some (-1)%R;
  cp_prev : ∀ j c, 0 < j → at_ (cfMapV s') j = Some c →
      ∃ l a, chain s c l a ∧
             at_ (cPrevV s') j = Some (rank (edges (fGraphV s)) a);
  cp_edges : ∀ j p, 0 < j → at_ (cPrevV s') j = Some p →
      has_edge (edges (cGraphV s')) j p ∧ has_edge (edges (cGraphV s')) p j;
  cp_len : ∀ j c l a, 0 < j → at_ (cfMapV s') j = Some c → chain s c l a →
      at_ (cLengthV s') j = Some (Rsum (seglen s <$> l)) ∧
      ∀ k, k ∈ l →
        at_ (fcFractionV s') k =
        Some (seglen s k / Rsum (seglen s <$> l))%R
}.

Definition human_full : Skeleton :=
  default emptySkeleton (exec_all human_calls emptySkeleton).

(** *** A straight skeleton of three joints *)

Definition line3_calls : list call := [
  MakeJoint "a" (mkVec 0 0 0) "";
  MakeJoint "b" (mkVec 2 0 0) "a";
  MakeJoint "c" (mkVec 6 0 0) "b"
].

Definition line3 : Skeleton :=
  default emptySkeleton (exec_all line3_calls emptySkeleton).

(** The reading of [fcFractionV] as a cumulative distance: the length of
    the chain from its child end up to joint [k], over the length of the
    whole chain. *)
Fixpoint upto (k : Z) (l : list Z) : list Z :=
  match l with
  | [] => []
  | x :: l' => if decide (x = k) then [x] else x :: upto k l'
  end.

Definition cumulative_fraction (s : Skeleton) (l : list Z) (k : Z) : R :=
  (Rsum (seglen s <$> upto k l) / Rsum (seglen s <$> l))%R.

Definition fractions_cumulative (s s' : Skeleton) : Prop :=
  ∀ c l a k,
    0 < c → retained (edges (fGraphV s)) c → chain s c l a → k ∈ l →
    at_ (fcFractionV s') k = Some (cumulative_fraction s l k).

(** ** Scaling *)

Definition scaled (f : R) (s : Skeleton) : Skeleton :=
  mkSkeleton
    (mkGraph ((λ v, vscale v f) <$> verts (fGraphV s)) (edges (fGraphV s)))
    (fPrevV s) (fSymV s)
    (mkGraph ((λ v, vscale v f) <$> verts (cGraphV s)) (edges (cGraphV s)))
    (cPrevV s) (cSymV s) (cFeetV s) (cFatV s) (cfMapV s) (fcMapV s)
    (fcFractionV s) ((λ l, l * f)%R <$> cLengthV s) (jointNames s).

Definition human_compressed : Skeleton :=
  default emptySkeleton (initCompressed human_full).

(** ** Skeletons read from a file *)

(** The sizes that keep every access of [makeJoint] in range. *)
Definition sized (s : Skeleton) : Prop :=
  size (edges (fGraphV s)) = size (fSymV s) ∧
  ∀ k i, jointNames s !! k = Some i → 0 ≤ i < size (fSymV s).

(** The lines for which the loop of [FileSkeleton] makes a joint. *)
Definition joint_lines (lines : list (list string)) : list (list string) :=
  filter (λ line, (5 ≤ length line)%nat) lines.

(** The largest finite [double], (2^53 - 1) * 2^971. *)
Definition DBL_MAX : R := IZR ((2 ^ 53 - 1) * 2 ^ 971).

(** A number that [FileSkeleton] can double: [x * 2.] stays within the
    finite doubles, where doubling and halving are exact. *)
Definition can_be_doubled (x : R) : Prop := (Rabs (x * 2) <= DBL_MAX)%R.

(** The builder call that the loop of [FileSkeleton] makes for a line. *)
Definition file_call (scan_lf : string → option R) (dflt : PVector3)
    (line : list string) : option call :=
  match line with
  | name :: w1 :: w2 :: w3 :: w4 :: _ =>
      Some (MakeJoint name
              (vscale (mkVec (scanned scan_lf w1 (vx dflt))
                             (scanned scan_lf w2 (vy dflt))
                             (scanned scan_lf w3 (vz dflt))) 2)
              (if decide (w4 = "-1") then "" else w4))
  | _ => None
  end.

(** The positions given to [makeJoint] by a list of builder calls. *)
Definition authored (cs : list call) : list PVector3 :=
  omap (λ c, match c with
             | MakeJoint _ pos _ => Some pos
             | MakeSymmetric _ _ => None
             end) cs.

(** A file for the straight skeleton, read with a scanner that knows the
    three numbers it contains. *)
Definition toy_scan (word : string) : option R :=
  if decide (word = "0") then Some 0%R
  else if decide (word = "1") then Some 1%R
  else if decide (word = "3") then Some 3%R
  else None.

Definition line3_file : list (list string) :=
  [["a"; "0"; "0"; "0"; "-1"]; ["b"; "1"; "0"; "0"; "a"]; [];
   ["c"; "3"; "0"; "0"; "b"]].

(** ** Tags *)

(** Everything in a skeleton but the foot and fat tags and the name
    table. *)
Definition untagged_part (s : Skeleton) :=
  (fGraphV s, fPrevV s, fSymV s, cGraphV s, cPrevV s, cSymV s, cfMapV s,
   fcMapV s, fcFractionV s, cLengthV s).

(** ** The built-in templates *)

(** A template constructor that runs to its end: its builder calls keep
    the joints a tree, compression completes on what they build, and the
    tags that follow touch nothing but the tag vectors. *)
Definition completes (cs : list call) (T : option Skeleton) : Prop :=
  follows_contract emptySkeleton cs = true ∧
  ∃ s0 t s,
    exec_all cs emptySkeleton = Some s0 ∧ initCompressed s0 = Some t ∧
    T = Some s ∧ untagged_part s = untagged_part t ∧
    jointNames s = jointNames t.

(** The shape of the compressed skeleton: parents, symmetry and tags. *)
Definition compressed_shape (s : Skeleton) :=
  (cPrevV s, cSymV s, cFeetV s, cFatV s).

(** * Properties *)

(** ** Indexed vectors *)

Lemma at_Some {A} (v : list A) i x :
  at_ v i = Some x ↔ 0 ≤ i ∧ v !! Z.to_nat i = Some x.
Proof.
  unfold at_. case_decide as Hi.
  - split; [by intros ?|by intros [_ ?]].
  - split; [done|intros [? _]; lia].
Qed.

Lemma at_range {A} (v : list A) i x : at_ v i = Some x → 0 ≤ i < size v.
Proof.
  rewrite at_Some. intros [? H%lookup_lt_Some]. unfold size. lia.
Qed.

Lemma at_is_Some {A} (v : list A) i : 0 ≤ i < size v → is_Some (at_ v i).
Proof.
  unfold at_, size. intros. rewrite decide_True by lia.
  apply lookup_lt_is_Some. lia.
Qed.

Lemma set_at_Some {A} (v : list A) i x :
  0 ≤ i < size v → set_at v i x = Some (<[Z.to_nat i := x]> v).
Proof. unfold set_at, size. intros. by rewrite decide_True. Qed.

Lemma set_at_inv {A} (v v' : list A) i x :
  set_at v i x = Some v' → 0 ≤ i < size v ∧ v' = <[Z.to_nat i := x]> v.
Proof. unfold set_at, size. case_decide as Hi; [|done]. by intros [= <-]. Qed.

Lemma at_insert_eq {A} (v : list A) i x :
  0 ≤ i < size v → at_ (<[Z.to_nat i := x]> v) i = Some x.
Proof.
  unfold size. intros. apply at_Some. split; [lia|].
  apply list_lookup_insert_eq. lia.
Qed.

Lemma at_insert_ne {A} (v : list A) i j x :
  0 ≤ i → i ≠ j → at_ (<[Z.to_nat i := x]> v) j = at_ v j.
Proof.
  unfold at_. intros. case_decide; [|done].
  apply list_lookup_insert_ne. lia.
Qed.

Lemma at_app_l {A} (v w : list A) i : i < size v → at_ (v ++ w) i = at_ v i.
Proof.
  unfold at_, size. intros. case_decide; [|done].
  apply lookup_app_l. lia.
Qed.

Lemma at_app_size {A} (v : list A) x : at_ (v ++ [x]) (size v) = Some x.
Proof.
  unfold size. apply at_Some. split; [lia|].
  rewrite Nat2Z.id. by rewrite lookup_app_r, Nat.sub_diag.
Qed.

Lemma size_app {A} (v w : list A) : size (v ++ w) = size v + size w.
Proof. unfold size. rewrite length_app. lia. Qed.

Lemma size_insert {A} (v : list A) i x : size (<[i := x]> v) = size v.
Proof. unfold size. by rewrite length_insert. Qed.

Lemma size_nonneg {A} (v : list A) : 0 ≤ size v.
Proof. unfold size. lia. Qed.

Lemma at_fmap {A B} (f : A → B) (v : list A) i :
  at_ (f <$> v) i = f <$> at_ v i.
Proof. unfold at_. case_decide; [|done]. apply list_lookup_fmap. Qed.

Lemma at_seqZ n i : 0 ≤ i < n → at_ (seqZ 0 n) i = Some i.
Proof.
  intros. apply at_Some. split; [lia|]. rewrite lookup_seqZ. lia.
Qed.

(** ** Loops *)

Lemma for_loop_inv {St} (Inv : Z → St → Prop) body lo cnt (st : St) :
  Inv lo st →
  (∀ i st, lo ≤ i < lo + Z.of_nat cnt → Inv i st →
           ∃ st', body i st = Some st' ∧ Inv (i + 1) st') →
  ∃ st', for_loop body lo cnt st = Some st' ∧ Inv (lo + Z.of_nat cnt) st'.
Proof.
  revert lo st. induction cnt as [|cnt IH]; intros lo st H0 Hstep.
  - exists st. split; [done|]. by replace (lo + Z.of_nat 0) with lo by lia.
  - destruct (Hstep lo st) as (st1 & Hb & H1); [lia|done|].
    destruct (IH (lo + 1) st1) as (st2 & Hl & H2); [done| |].
    + intros i st' ??. apply Hstep; [lia|done].
    + exists st2. simpl. rewrite Hb. simpl. split; [done|].
      by replace (lo + Z.of_nat (S cnt)) with (lo + 1 + Z.of_nat cnt) by lia.
Qed.

(** ** The invariant of the full skeleton *)

Lemma emptySkeleton_ok : full_ok emptySkeleton.
Proof.
  split; try done; intros;
    match goal with
    | H : at_ _ _ = Some _ |- _ =>
        apply at_range in H; unfold size in H; simpl in H; lia
    end.
Qed.

Lemma index_name_lookup m k i m' :
  index_name m k = (i, m') →
  m' !! k = Some i ∧ (m !! k = Some i ∨ m !! k = None ∧ i = 0) ∧
  ∀ k' i', m' !! k' = Some i' → m !! k' = Some i' ∨ k' = k ∧ i' = 0.
Proof.
  unfold index_name. destruct (m !! k) as [j|] eqn:E; intros [= <- <-].
  - naive_solver.
  - rewrite lookup_insert_eq. split; [done|]. split; [by right|].
    intros k' i'. rewrite lookup_insert. case_decide; naive_solver.
Qed.

Lemma resize_succ {A} (l : list A) x :
  resize (Z.to_nat (size l + 1)) x l = l ++ [x].
Proof.
  unfold size. rewrite resize_ge by lia.
  by replace (Z.to_nat (Z.of_nat (length l) + 1) - length l)%nat with 1%nat
    by lia.
Qed.

Lemma push_at_Some {A} (v : list (list A)) i x l :
  at_ v i = Some l → push_at v i x = Some (<[Z.to_nat i := l ++ [x]]> v).
Proof.
  intros H. unfold push_at. rewrite H. simpl.
  apply set_at_Some. eauto using at_range.
Qed.

Lemma filter_ext_in {A} (P Q : A → Prop) `{!∀ x, Decision (P x)}
    `{!∀ x, Decision (Q x)} (l : list A) :
  (∀ x, x ∈ l → (P x ↔ Q x)) → filter P l = filter Q l.
Proof.
  induction l as [|x l IH]; intros Hl; [done|].
  rewrite !filter_cons. rewrite IH by (intros; apply Hl; by right).
  assert (P x ↔ Q x) by (apply Hl; by left).
  repeat case_decide; try done; tauto.
Qed.

Lemma filter_all {A} (P : A → Prop) `{!∀ x, Decision (P x)} (l : list A) :
  (∀ x, x ∈ l → P x) → filter P l = l.
Proof.
  induction l as [|x l IH]; intros Hl; [done|].
  rewrite filter_cons_True by (apply Hl; by left).
  f_equal. apply IH. intros; apply Hl; by right.
Qed.

Lemma children_snoc prev p i :
  children (prev ++ [p]) i =
  children prev i ++ (if decide (p = i) then [size prev] else []).
Proof.
  unfold children. rewrite size_app.
  change (size [p]) with 1. rewrite seqZ_app by (pose proof (size_nonneg prev); lia).
  rewrite filter_app. f_equal.
  - apply filter_ext_in. intros c Hc%elem_of_seqZ.
    rewrite at_app_l by lia. done.
  - rewrite seqZ_cons, seqZ_nil by lia. simpl.
    rewrite filter_cons, filter_nil. rewrite Z.add_0_l, at_app_size.
    repeat case_decide; naive_solver.
Qed.

Lemma children_bound prev i c :
  c ∈ children prev i → 0 ≤ c < size prev ∧ at_ prev c = Some i.
Proof.
  unfold children. rewrite list_elem_of_filter, elem_of_seqZ. intuition lia.
Qed.

Lemma makeJoint_root_ok name pos s :
  full_ok s → fPrevV s = [] →
  ∃ s', makeJoint name pos "" s = Some s' ∧ full_ok s'.
Proof.
  intros Hok Hn. unfold makeJoint. rewrite decide_True by done.
  eexists. split; [done|].
  pose proof (ok_verts s Hok) as Hv. pose proof (ok_edges s Hok) as He.
  pose proof (ok_syms s Hok) as Hs. rewrite Hn in *.
  destruct (verts (fGraphV s)) as [|??] eqn:Ev; [|done].
  destruct (edges (fGraphV s)) as [|??] eqn:Ee; [|done].
  destruct (fSymV s) as [|??] eqn:Es; [|done].
  split; simpl; rewrite ?Hn, ?Ev, ?Ee, ?Es; simpl; try done.
  - intros p [= <-]. done.
  - intros i p Hi H. apply at_range in H. unfold size in H; simpl in H. lia.
  - intros i e H. pose proof (at_range _ _ _ H) as Hr.
    unfold size in Hr; simpl in Hr. assert (i = 0) as -> by lia.
    injection H as <-. done.
  - intros i q H. pose proof (at_range _ _ _ H) as Hr.
    unfold size in Hr; simpl in Hr. assert (i = 0) as -> by lia.
    injection H as <-. unfold size; simpl; lia.
  - intros k i. rewrite lookup_insert. case_decide.
    + intros [= <-]. unfold size; simpl; lia.
    + intros H'. apply (ok_names s Hok) in H'. rewrite Hn in H'.
      unfold size in H'; simpl in H'; lia.
  - apply Hok.
Qed.

Lemma size_singleton {A} (x : A) : size [x] = 1.
Proof. done. Qed.

Lemma prev_lt s i p : full_ok s → at_ (fPrevV s) i = Some p → -1 ≤ p < i.
Proof.
  intros Hok H. pose proof (at_range _ _ _ H).
  destruct (decide (i = 0)) as [->|].
  - apply (ok_root s Hok) in H. lia.
  - apply (ok_prev s Hok) in H; lia.
Qed.

Lemma children_top s : full_ok s → children (fPrevV s) (size (fPrevV s)) = [].
Proof.
  intros Hok. apply elem_of_nil_inv. intros c [Hc H]%children_bound.
  apply (prev_lt s _ _ Hok) in H. lia.
Qed.

Lemma makeJoint_child_ok name pos previous s :
  full_ok s → fPrevV s ≠ [] → previous ≠ "" → previous ≠ name →
  ∃ s', makeJoint name pos previous s = Some s' ∧ full_ok s'.
Proof.
  intros Hok Hn Hp Hpn. unfold makeJoint. rewrite decide_False by done.
  pose proof (ok_verts s Hok) as Hv. pose proof (ok_edges s Hok) as He.
  pose proof (ok_syms s Hok) as Hs.
  assert (0 < size (fPrevV s)) as Hpos.
  { destruct (fPrevV s); [done|]. unfold size; simpl; lia. }
  destruct (index_name _ previous) as [prev names'] eqn:E.
  apply index_name_lookup in E as (Hl & Hold & Hnames).
  rewrite lookup_insert_ne in Hold by done.
  assert (0 ≤ prev < size (fPrevV s)) as Hprev.
  { destruct Hold as [H|[_ ->]]; [by apply (ok_names s Hok) in H|]. lia. }
  rewrite Hs, <- He, resize_succ.
  assert (at_ (edges (fGraphV s) ++ [[]]) (size (edges (fGraphV s))) = Some [])
    as H1 by apply at_app_size.
  rewrite (push_at_Some _ _ _ _ H1). simpl.
  unfold size at 1. rewrite Nat2Z.id.
  rewrite insert_app_r_alt, Nat.sub_diag by lia. simpl.
  destruct (at_is_Some (edges (fGraphV s)) prev) as [ep Hep]; [lia|].
  assert (at_ (edges (fGraphV s) ++ [[prev]]) prev = Some ep) as H2.
  { rewrite at_app_l by lia. done. }
  rewrite (push_at_Some _ _ _ _ H2). simpl.
  eexists. split; [done|].
  split; simpl.
  - rewrite !size_app, Hv. done.
  - rewrite size_insert, !size_app, He. done.
  - rewrite !size_app, Hs. done.
  - intros p. rewrite at_app_l by lia. apply Hok.
  - intros i p Hi H. pose proof (at_range _ _ _ H) as Hr.
    rewrite size_app in Hr. change (size [prev]) with 1 in Hr.
    destruct (decide (i = size (fPrevV s))) as [->|].
    + rewrite at_app_size in H. injection H as <-. lia.
    + rewrite at_app_l in H by lia. by apply (ok_prev s Hok) in H.
  - intros i e H. rewrite children_snoc.
    destruct (decide (prev = i)) as [<-|Hne].
    + rewrite at_insert_eq in H by (rewrite size_app; change (size [[prev]]) with 1; lia).
      injection H as <-. rewrite !size_app.
      rewrite (ok_deg s Hok _ _ Hep), !size_singleton. lia.
    + rewrite at_insert_ne in H by lia.
      pose proof (at_range _ _ _ H) as Hr.
      rewrite size_app in Hr. change (size [[prev]]) with 1 in Hr.
      rewrite app_nil_r.
      destruct (decide (i = size (fPrevV s))) as [->|].
      * rewrite <- He, at_app_size in H. injection H as <-.
        rewrite children_top by done. rewrite decide_False by lia. done.
      * rewrite at_app_l in H by lia. by apply (ok_deg s Hok).
  - intros i q H. pose proof (at_range _ _ _ H) as Hr.
    rewrite !size_app in *. change (size [-1]) with 1 in Hr.
    change (size [prev]) with 1.
    destruct (decide (i = size (fSymV s))) as [->|].
    + rewrite at_app_size in H. injection H as <-. lia.
    + rewrite at_app_l in H by lia. apply (ok_sym s Hok) in H. lia.
  - intros k i H. rewrite size_app. change (size [prev]) with 1.
    apply Hnames in H as [H|[_ ->]]; [|lia].
    rewrite lookup_insert in H. case_decide.
    + injection H as <-. lia.
    + apply (ok_names s Hok) in H. lia.
  - apply Hok.
Qed.

Lemma makeSymmetric_ok name1 name2 s s' :
  full_ok s → makeSymmetric name1 name2 s = Some s' → full_ok s'.
Proof.
  intros Hok. unfold makeSymmetric.
  destruct (index_name (jointNames s) name1) as [i1 names1] eqn:E1.
  destruct (index_name names1 name2) as [i2 names2] eqn:E2.
  apply index_name_lookup in E1 as (_ & Ho1 & Hn1).
  apply index_name_lookup in E2 as (_ & Ho2 & Hn2).
  assert (∀ k i, names1 !! k = Some i → 0 ≤ i ∧ (fPrevV s ≠ [] → i < size (fPrevV s))) as Hr1.
  { intros k i [H|[_ ->]]%Hn1.
    - apply (ok_names s Hok) in H. lia.
    - split; [done|]. destruct (fPrevV s); [done|]. unfold size; simpl; lia. }
  assert (∀ k i, names2 !! k = Some i → 0 ≤ i ∧ (fPrevV s ≠ [] → i < size (fPrevV s))) as Hr2.
  { intros k i [H|[_ ->]]%Hn2; [by eapply Hr1|].
    split; [done|]. destruct (fPrevV s); [done|]. unfold size; simpl; lia. }
  assert (0 ≤ i1) as Hi1.
  { destruct Ho1 as [H|[_ ->]]; [|done]. apply (ok_names s Hok) in H. lia. }
  assert (0 ≤ i2) as Hi2.
  { destruct Ho2 as [H|[_ ->]]; [|done]. apply Hr1 in H. lia. }
  destruct (decide (i1 > i2)) as [Hgt|Hle]; simpl;
    intros (sym & [Hin ->]%set_at_inv & [= <-])%bind_Some.
  all: assert (fPrevV s ≠ []) as Hne
    by (intros Hnil; rewrite (ok_syms s Hok), Hnil in Hin;
        unfold size in Hin; simpl in Hin; lia).
  all: split; simpl; try apply Hok.
  all: rewrite ?size_insert; try apply Hok.
  all: try (intros k i H; destruct (Hr2 _ _ H) as [? Hlt];
            specialize (Hlt Hne); lia).
  - intros i q H. destruct (decide (i = i1)) as [->|].
    + rewrite at_insert_eq in H by done. injection H as <-.
      rewrite <- (ok_syms s Hok). lia.
    + rewrite at_insert_ne in H by lia. by apply (ok_sym s Hok) in H.
  - intros i q H. destruct (decide (i = i2)) as [->|].
    + rewrite at_insert_eq in H by done. injection H as <-.
      rewrite <- (ok_syms s Hok). lia.
    + rewrite at_insert_ne in H by lia. by apply (ok_sym s Hok) in H.
Qed.

Lemma makeSymmetric_total name1 name2 s :
  full_ok s → fPrevV s ≠ [] → is_Some (makeSymmetric name1 name2 s).
Proof.
  intros Hok Hne. unfold makeSymmetric.
  assert (0 < size (fPrevV s)) as Hpos.
  { destruct (fPrevV s); [done|]. unfold size; simpl; lia. }
  destruct (index_name (jointNames s) name1) as [i1 names1] eqn:E1.
  destruct (index_name names1 name2) as [i2 names2] eqn:E2.
  apply index_name_lookup in E1 as (_ & Ho1 & Hn1).
  apply index_name_lookup in E2 as (_ & Ho2 & _).
  assert (0 ≤ i1 < size (fSymV s)) as Hi1.
  { rewrite (ok_syms s Hok).
    destruct Ho1 as [H|[_ ->]]; [by apply (ok_names s Hok) in H|lia]. }
  assert (0 ≤ i2 < size (fSymV s)) as Hi2.
  { rewrite (ok_syms s Hok). destruct Ho2 as [H|[_ ->]]; [|lia].
    apply Hn1 in H as [H|[_ ->]]; [by apply (ok_names s Hok) in H|lia]. }
  destruct (decide (i1 > i2)); simpl; rewrite set_at_Some by done; done.
Qed.

Lemma admissible_exec c s :
  full_ok s → admissible s c = true → ∃ s', exec c s = Some s' ∧ full_ok s'.
Proof.
  intros Hok. destruct c as [name pos previous|name1 name2]; simpl.
  - case_decide as Hn.
    + intros ->%bool_decide_eq_true. by apply makeJoint_root_ok.
    + intros [??]%bool_decide_eq_true. by apply makeJoint_child_ok.
  - intros Hne%bool_decide_eq_true.
    destruct (makeSymmetric_total name1 name2 s Hok Hne) as [s' Hs'].
    eauto using makeSymmetric_ok.
Qed.

Lemma run_None (calls : list (Skeleton → option Skeleton)) :
  foldl (λ acc call, acc ≫= call) None calls = None.
Proof. induction calls; simpl; auto. Qed.

Lemma exec_all_cons c cs s : exec_all (c :: cs) s = exec c s ≫= exec_all cs.
Proof.
  unfold exec_all. simpl. destruct (exec c s); simpl; [done|apply run_None].
Qed.

Lemma follows_contract_ok cs s :
  full_ok s → follows_contract s cs = true →
  ∃ s', exec_all cs s = Some s' ∧ full_ok s'.
Proof.
  revert s. induction cs as [|c cs IH]; intros s Hok H.
  - by exists s.
  - simpl in H. apply andb_true_iff in H as [Ha H].
    destruct (admissible_exec c s Hok Ha) as (s1 & He & Hok1).
    rewrite He in H. rewrite exec_all_cons, He. simpl. by apply IH.
Qed.

(** ** Compression: which joints are kept *)

Lemma seqZ_snoc i : 0 ≤ i → seqZ 0 (i + 1) = seqZ 0 i ++ [i].
Proof.
  intros. by rewrite seqZ_app by lia.
Qed.

Lemma size_seqZ n : 0 ≤ n → size (seqZ 0 n) = n.
Proof. intros. unfold size. rewrite length_seqZ. lia. Qed.

Lemma size_fmap {A B} (f : A → B) (l : list A) : size (f <$> l) = size l.
Proof. unfold size. by rewrite length_fmap. Qed.

Lemma size_replicate {A} n (x : A) : size (replicate n x) = Z.of_nat n.
Proof. unfold size. by rewrite length_replicate. Qed.

Lemma fc_spec_snoc es i :
  0 ≤ i →
  fc_spec es (i + 1) =
  fc_spec es i ++ [if decide (retained es i) then rank es i else -1].
Proof. intros. unfold fc_spec. by rewrite seqZ_snoc, fmap_app. Qed.

Lemma cf_spec_snoc es i :
  0 ≤ i →
  cf_spec es (i + 1) =
  cf_spec es i ++ (if decide (retained es i) then [i] else []).
Proof.
  intros. unfold cf_spec. rewrite seqZ_snoc, filter_app by done.
  by rewrite filter_cons, filter_nil.
Qed.

Lemma size_fc_spec es n : 0 ≤ n → size (fc_spec es n) = n.
Proof. intros. unfold fc_spec. by rewrite size_fmap, size_seqZ. Qed.

Lemma map_loop_spec es (n : nat) :
  Z.of_nat n ≤ size es →
  for_loop (map_body es) 0 n (replicate n (-1), []) =
  Some (fc_spec es (Z.of_nat n), cf_spec es (Z.of_nat n)).
Proof.
  intros Hn.
  destruct (for_loop_inv
    (λ i (st : list Z * list Z),
       st = (fc_spec es i ++ replicate (Z.to_nat (Z.of_nat n - i)) (-1),
             cf_spec es i))
    (map_body es) 0 n (replicate n (-1), [])) as (st & -> & ->).
  - rewrite Z.sub_0_r, Nat2Z.id. done.
  - intros i st Hi ->. unfold map_body.
    destruct (at_is_Some es i) as [e He]; [lia|]. rewrite He. simpl.
    assert (Z.to_nat (Z.of_nat n - i) = S (Z.to_nat (Z.of_nat n - (i + 1))))
      as -> by lia.
    rewrite fc_spec_snoc, cf_spec_snoc by lia.
    assert (retained es i ↔ ¬ (size e = 2 ∧ i ≠ 0)) as Hret.
    { unfold retained. rewrite He. simpl.
      split.
      - intros [->|H] [? ?]; [done|]. apply H. by f_equal.
      - intros H. destruct (decide (i = 0)); [by left|right].
        intros [= ?]. tauto. }
    case_decide as Hd.
    + rewrite !decide_False by tauto. eexists. split; [done|].
      by rewrite <- app_assoc, app_nil_r.
    + rewrite !decide_True by tauto.
      rewrite set_at_Some
        by (rewrite size_app, size_fc_spec, size_replicate; lia).
      simpl. eexists. split; [done|]. f_equal.
      rewrite <- app_assoc. simpl.
      replace (Z.to_nat i) with (length (fc_spec es i) + 0)%nat.
      2:{ pose proof (size_fc_spec es i ltac:(lia)) as Hs.
          unfold size in Hs. lia. }
      rewrite insert_app_r. done.
  - simpl. rewrite Z.sub_diag. simpl. by rewrite app_nil_r.
Qed.

Lemma at_fc_spec es n i :
  0 ≤ i < n →
  at_ (fc_spec es n) i = Some (if decide (retained es i) then rank es i else -1).
Proof. intros. unfold fc_spec. by rewrite at_fmap, at_seqZ. Qed.

Lemma rank_nonneg es i : 0 ≤ rank es i.
Proof. apply size_nonneg. Qed.

Lemma rank_cf_spec es i : rank es i = size (cf_spec es i).
Proof. done. Qed.

Lemma cf_spec_split es n a :
  0 ≤ a < n → retained es a →
  ∃ rest, cf_spec es n = cf_spec es a ++ a :: rest.
Proof.
  intros Ha Hr. unfold cf_spec.
  replace n with (a + (1 + (n - a - 1))) by lia.
  rewrite seqZ_app by lia. rewrite filter_app, Z.add_0_l.
  rewrite (seqZ_cons a) by lia. rewrite filter_cons_True by done. eauto.
Qed.

Lemma at_cf_rank es n a :
  0 ≤ a < n → retained es a → at_ (cf_spec es n) (rank es a) = Some a.
Proof.
  intros Ha Hr. destruct (cf_spec_split es n a Ha Hr) as [rest ->].
  rewrite rank_cf_spec. apply at_Some. split; [apply size_nonneg|].
  unfold size. rewrite Nat2Z.id. by rewrite lookup_app_r, Nat.sub_diag.
Qed.

Lemma cf_spec_elem es n c : c ∈ cf_spec es n ↔ retained es c ∧ 0 ≤ c < n.
Proof.
  unfold cf_spec. rewrite list_elem_of_filter, elem_of_seqZ. intuition lia.
Qed.

Lemma NoDup_cf_spec es n : NoDup (cf_spec es n).
Proof. apply NoDup_filter, NoDup_seqZ. Qed.

Lemma at_elem_of {A} (v : list A) i x : at_ v i = Some x → x ∈ v.
Proof. intros [_ H]%at_Some. by eapply list_elem_of_lookup_2. Qed.

Lemma at_NoDup_inj {A} (v : list A) i j x :
  NoDup v → at_ v i = Some x → at_ v j = Some x → i = j.
Proof.
  intros Hnd [Hi H1]%at_Some [Hj H2]%at_Some.
  pose proof (NoDup_lookup _ _ _ _ Hnd H1 H2). lia.
Qed.

(** The two index maps are inverse to each other on retained joints. *)
Lemma at_cf_inv es n j c :
  at_ (cf_spec es n) j = Some c →
  retained es c ∧ 0 ≤ c < n ∧ rank es c = j.
Proof.
  intros H. pose proof (at_elem_of _ _ _ H) as [Hr Hc]%cf_spec_elem.
  split; [done|]. split; [done|].
  eapply at_NoDup_inj; [apply NoDup_cf_spec| |done].
  by apply at_cf_rank.
Qed.

Lemma rank_lt_size es n a :
  0 ≤ a < n → retained es a → 0 ≤ rank es a < size (cf_spec es n).
Proof. intros Ha Hr. eapply at_range, at_cf_rank; done. Qed.

Lemma retained_root es : retained es 0.
Proof. by left. Qed.

Lemma at_cf_root es n : 0 < n → at_ (cf_spec es n) 0 = Some 0.
Proof.
  intros. apply (at_cf_rank es n 0); [lia|apply retained_root].
Qed.

(** ** Chains of collapsed joints *)

Lemma chain_functional s c l a l' a' :
  chain s c l a → chain s c l' a' → l = l' ∧ a = a'.
Proof.
  intros H. revert l' a'. induction H as [c p Hp H0 Hr|c p l a Hp Hr H IH];
    intros l' a' H'; inversion H' as [c' p' Hp' H0' Hr'|c' p' l1 a1 Hp' Hr' H1];
    subst; rewrite Hp in Hp'; injection Hp' as <-; try done.
  destruct (IH _ _ H1) as [-> ->]. done.
Qed.

Lemma chain_exists s c :
  full_ok s → 0 < c < size (fPrevV s) → ∃ l a, chain s c l a.
Proof.
  intros Hok Hc. assert (0 ≤ c) as Hc0 by lia. revert Hc.
  pattern c. apply Zlt_0_ind; [|done]. clear c Hc0.
  intros c IH _ Hc.
  destruct (at_is_Some (fPrevV s) c) as [p Hp]; [lia|].
  assert (0 ≤ p < c) as Hpc by (apply (ok_prev s Hok c p); [lia|done]).
  destruct (decide (retained (edges (fGraphV s)) p)) as [Hr|Hr].
  - exists [c], p. apply chain_stop; [done|lia|done].
  - assert (p ≠ 0) by (intros ->; apply Hr, retained_root).
    destruct (IH p) as (l & a & Hch); [lia|lia|].
    exists (c :: l), a. by eapply chain_skip.
Qed.

Lemma chain_facts s c l a :
  full_ok s → chain s c l a →
  0 ≤ a < c ∧ retained (edges (fGraphV s)) a ∧
  ∃ l', l = c :: l' ∧
    ∀ k, k ∈ l' → a < k < c ∧ ¬ retained (edges (fGraphV s)) k.
Proof.
  intros Hok H. induction H as [c p Hp H0 Hr|c p l a Hp Hr H IH].
  - pose proof (prev_lt s _ _ Hok Hp). split; [lia|]. split; [done|].
    exists []. split; [done|]. by intros k ?%elem_of_nil.
  - pose proof (prev_lt s _ _ Hok Hp).
    destruct IH as (Ha & Hra & l' & -> & Hl'). split; [lia|]. split; [done|].
    exists (p :: l'). split; [done|].
    intros k [->|Hk]%elem_of_cons; [split; [lia|done]|].
    apply Hl' in Hk. split; [lia|tauto].
Qed.

Lemma chain_start s c l a : chain s c l a → is_Some (at_ (fPrevV s) c).
Proof. by intros [?????|??????]. Qed.

Lemma find_retained_chain s c l a p fuel :
  full_ok s → chain s c l a → at_ (fPrevV s) c = Some p →
  p < Z.of_nat fuel →
  find_retained (fPrevV s) (fc_spec (edges (fGraphV s)) (size (fPrevV s)))
    fuel p = Some a.
Proof.
  intros Hok H. revert p fuel.
  induction H as [c p0 Hp H0 Hr|c p0 l a Hp Hr H IH]; intros p fuel Hp' Hf;
    rewrite Hp in Hp'; injection Hp' as <-;
    pose proof (prev_lt s _ _ Hok Hp); pose proof (at_range _ _ _ Hp).
  - destruct fuel as [|f]; [lia|]. simpl.
    rewrite at_fc_spec by lia. rewrite decide_True by done. simpl.
    rewrite decide_False; [done|]. pose proof (rank_nonneg (edges (fGraphV s)) p0). lia.
  - destruct (chain_start _ _ _ _ H) as [p' Hp'].
    pose proof (prev_lt s _ _ Hok Hp'). pose proof (at_range _ _ _ Hp').
    destruct fuel as [|f]; [lia|]. simpl.
    rewrite at_fc_spec by lia. rewrite decide_False by done. simpl.
    rewrite Hp'. simpl. apply IH; [done|lia].
Qed.

(** The second loop. *)
Lemma link_loop_spec s :
  full_ok s →
  let es := edges (fGraphV s) in
  let n := size (fPrevV s) in
  let fc := fc_spec es n in
  let cf := cf_spec es n in
  let m := length cf in
  ∃ csym cprev,
    for_loop (link_body s fc cf) 0 m ([], replicate m (-1), replicate m (-1))
      = Some (vert s <$> cf, csym, cprev) ∧
    size csym = size cf ∧ size cprev = size cf ∧
    (0 < size cf → at_ cprev 0 = Some (-1)) ∧
    ∀ j c, 0 < j → at_ cf j = Some c →
      ∃ l a, chain s c l a ∧ at_ cprev j = Some (rank es a).
Proof.
  intros Hok es n fc cf m.
  assert (Z.of_nat m = size cf) as Hm by done.
  destruct (for_loop_inv
    (λ i (st : list PVector3 * list Z * list Z),
       ∃ csym cprev,
         st = (vert s <$> take (Z.to_nat i) cf, csym, cprev) ∧
         size csym = size cf ∧ size cprev = size cf ∧
         (∀ j, i ≤ j < size cf → at_ cprev j = Some (-1)) ∧
         (0 < size cf → at_ cprev 0 = Some (-1)) ∧
         ∀ j c, 0 < j < i → at_ cf j = Some c →
           ∃ l a, chain s c l a ∧ at_ cprev j = Some (rank es a))
    (link_body s fc cf) 0 m ([], replicate m (-1), replicate m (-1)))
    as (st & Hloop & csym & cprev & -> & Hs & Hp & _ & H0 & Hspec).
  - exists (replicate m (-1)), (replicate m (-1)).
    rewrite !size_replicate. repeat split; try done.
    + intros j Hj. apply at_Some. split; [lia|].
      apply lookup_replicate_2. unfold size in Hj. lia.
    + intros Hj. apply at_Some. split; [lia|].
      apply lookup_replicate_2. unfold size in Hj. simpl. lia.
    + intros; lia.
  - intros i st Hi (csym & cprev & -> & Hs & Hp & Hrest & H0 & Hspec).
    rewrite Hm in Hi.
    destruct (at_is_Some cf i) as [c Hc]; [lia|].
    destruct (at_cf_inv _ _ _ _ Hc) as (Hrc & Hcn & Hrk).
    unfold link_body. rewrite Hc. simpl.
    destruct (at_is_Some (verts (fGraphV s)) c) as [v Hv];
      [rewrite (ok_verts s Hok); done|].
    rewrite Hv. simpl.
    destruct (at_is_Some (fSymV s) c) as [q Hq];
      [rewrite (ok_syms s Hok); done|].
    rewrite Hq. simpl.
    pose proof (ok_sym s Hok _ _ Hq) as Hqr.
    assert (∃ csym', (if decide (0 ≤ q)
                      then at_ fc q ≫= λ m0, set_at csym i m0
                      else Some csym) = Some csym' ∧ size csym' = size cf)
      as (csym' & -> & Hs').
    { case_decide; [|eauto]. unfold fc. rewrite at_fc_spec by (unfold n; lia). simpl.
      rewrite set_at_Some by lia. eexists. split; [done|].
      by rewrite size_insert. }
    simpl.
    assert (take (Z.to_nat (i + 1)) cf = take (Z.to_nat i) cf ++ [c]) as ->.
    { replace (Z.to_nat (i + 1)) with (S (Z.to_nat i)) by lia.
      apply take_S_r. by apply at_Some in Hc as [_ ?]. }
    rewrite fmap_app. simpl.
    assert (vert s c = v) as -> by (unfold vert; by rewrite Hv).
    case_decide as Hi0.
    + assert (0 < c) as Hc0.
      { destruct (decide (c = 0)) as [->|]; [|lia].
        pose proof (at_cf_root es n ltac:(lia)) as Hroot.
        pose proof (at_NoDup_inj _ _ _ _ (NoDup_cf_spec es n) Hc Hroot). lia. }
      destruct (chain_exists s c Hok ltac:(lia)) as (l & a & Hch).
      destruct (chain_start _ _ _ _ Hch) as [p Hpc]. rewrite Hpc. simpl.
      pose proof (prev_lt s _ _ Hok Hpc).
      rewrite (find_retained_chain s c l a p) by (done || unfold n, size in *; lia).
      simpl.
      destruct (chain_facts s c l a Hok Hch) as (Ha & Hra & _).
      unfold fc. rewrite at_fc_spec by lia. rewrite decide_True by done. simpl.
      rewrite set_at_Some by lia. simpl. eexists. split; [done|].
      exists csym', (<[Z.to_nat i := rank es a]> cprev).
      rewrite size_insert. repeat split; try done.
      * intros j Hj. rewrite at_insert_ne by lia. apply Hrest. lia.
      * intros Hj. rewrite at_insert_ne by lia. by apply H0.
      * intros j c' Hj Hc'. destruct (decide (j = i)) as [->|].
        -- rewrite Hc in Hc'. injection Hc' as <-. exists l, a.
           split; [done|]. apply at_insert_eq. lia.
        -- rewrite at_insert_ne by lia. apply Hspec; [lia|done].
    + eexists. split; [done|]. exists csym', cprev.
      repeat split; try done.
      * intros j Hj. apply Hrest. lia.
      * intros j c' Hj. lia.
  - exists csym, cprev. unfold m in Hloop.
    rewrite Z.add_0_l, Nat2Z.id, firstn_all in Hloop. split; [done|].
    repeat split; try done. intros j c Hj Hc. apply Hspec; [|done].
    apply at_range in Hc. unfold m, size in *. lia.
Qed.

Lemma push_at_inv {A} (v v' : list (list A)) i x :
  push_at v i x = Some v' →
  ∃ e, at_ v i = Some e ∧ v' = <[Z.to_nat i := e ++ [x]]> v.
Proof.
  unfold push_at. intros (e & He & [_ ->]%set_at_inv)%bind_Some. eauto.
Qed.

Lemma push_at_edge ce ce' i x :
  push_at ce i x = Some ce' →
  size ce' = size ce ∧ has_edge ce' i x ∧
  ∀ j p, has_edge ce j p → has_edge ce' j p.
Proof.
  intros (e & He & ->)%push_at_inv. pose proof (at_range _ _ _ He).
  rewrite size_insert. split; [done|]. split.
  - exists (e ++ [x]). rewrite at_insert_eq by done. split; [done|].
    apply elem_of_app. right. by left.
  - intros j p (e' & He' & Hp). destruct (decide (j = i)) as [->|].
    + exists (e ++ [x]). rewrite at_insert_eq by done. split; [done|].
      rewrite He in He'. injection He' as <-. apply elem_of_app. by left.
    + exists e'. by rewrite at_insert_ne by lia.
Qed.

Lemma edge_loop_spec (cprev : list Z) :
  (∀ j p, 0 < j → at_ cprev j = Some p → 0 ≤ p < size cprev) →
  ∃ ce,
    for_loop (edge_body cprev) 1 (length cprev - 1)
      (replicate (length cprev) []) = Some ce ∧
    size ce = size cprev ∧
    ∀ j p, 0 < j → at_ cprev j = Some p → has_edge ce j p ∧ has_edge ce p j.
Proof.
  intros Hrange.
  destruct (for_loop_inv
    (λ i (ce : list (list Z)),
       size ce = size cprev ∧
       ∀ j p, 0 < j < i → at_ cprev j = Some p →
              has_edge ce j p ∧ has_edge ce p j)
    (edge_body cprev) 1 (length cprev - 1) (replicate (length cprev) []))
    as (ce & Hloop & Hs & Hspec).
  - rewrite size_replicate. split; [done|]. intros; lia.
  - intros i ce Hi [Hs Hspec]. unfold edge_body.
    assert (0 < i < size cprev) as Hi' by (unfold size; lia).
    destruct (at_is_Some cprev i) as [p Hp]; [lia|]. rewrite Hp. simpl.
    pose proof (Hrange i p ltac:(lia) Hp) as Hpr.
    destruct (at_is_Some ce i) as [ei Hei]; [lia|].
    rewrite (push_at_Some _ _ _ _ Hei). simpl.
    destruct (at_is_Some (<[Z.to_nat i := ei ++ [p]]> ce) p) as [ep Hep];
      [rewrite size_insert; lia|].
    rewrite (push_at_Some _ _ _ _ Hep). eexists. split; [done|].
    pose proof (push_at_edge _ _ _ _ (push_at_Some _ _ p _ Hei))
      as (Hs1 & He1 & Hm1).
    pose proof (push_at_edge _ _ _ _ (push_at_Some _ _ i _ Hep))
      as (Hs2 & He2 & Hm2).
    split; [lia|]. intros j q Hj Hq.
    destruct (decide (j = i)) as [->|].
    + rewrite Hp in Hq. injection Hq as <-. auto.
    + destruct (Hspec j q ltac:(lia) Hq). auto.
  - exists ce. split; [done|]. split; [done|]. intros j p Hj Hp.
    apply Hspec; [|done]. apply at_range in Hp. unfold size in Hp. lia.
Qed.

(** ** Lengths and fractions *)

Lemma chain_NoDup s c l a : full_ok s → chain s c l a → NoDup l.
Proof.
  intros Hok H. induction H as [c p Hp H0 Hr|c p l a Hp Hr H IH].
  - apply NoDup_singleton.
  - apply NoDup_cons. split; [|done].
    pose proof (prev_lt s _ _ Hok Hp).
    destruct (chain_facts s p l a Hok H) as (_ & _ & l' & -> & Hl').
    intros [->|Hk%Hl']%elem_of_cons; lia.
Qed.

Lemma chain_range s c l a k :
  full_ok s → chain s c l a → k ∈ l → 0 < k ≤ c ∧ c < size (fPrevV s).
Proof.
  intros Hok H Hk. destruct (chain_start _ _ _ _ H) as [p Hp%at_range].
  destruct (chain_facts s c l a Hok H) as (? & _ & l' & -> & Hl').
  apply elem_of_cons in Hk as [->|Hk%Hl']; lia.
Qed.

Lemma seglen_eq s c p vc vp :
  at_ (fPrevV s) c = Some p → at_ (verts (fGraphV s)) c = Some vc →
  at_ (verts (fGraphV s)) p = Some vp → seglen s c = vlength (vsub vc vp).
Proof.
  intros Hp Hc Hv. unfold seglen, parent, vert. rewrite Hp, Hc. simpl.
  by rewrite Hv.
Qed.

Lemma measure_chain_spec s c l a i fuel lengths cl t :
  full_ok s → chain s c l a → c < Z.of_nat fuel → at_ cl i = Some t →
  (∀ kv, kv ∈ lengths → c < kv.1) →
  measure_chain s (fc_spec (edges (fGraphV s)) (size (fPrevV s))) i fuel c
    lengths cl =
  Some (lengths ++ ((λ k, (k, seglen s k)) <$> l),
        <[Z.to_nat i := foldl Rplus t (seglen s <$> l)]> cl).
Proof.
  intros Hok H. revert fuel lengths cl t.
  induction H as [c p Hp H0 Hr|c p l a Hp Hr H IH];
    intros fuel lengths cl t Hf Ht Hkeys;
    pose proof (prev_lt s _ _ Hok Hp); pose proof (at_range _ _ _ Hp);
    (destruct fuel as [|f]; [lia|]); simpl; rewrite Hp; simpl;
    (destruct (at_is_Some (verts (fGraphV s)) c) as [vc Hvc];
       [rewrite (ok_verts s Hok); lia|]); rewrite Hvc; simpl.
  - destruct (at_is_Some (verts (fGraphV s)) p) as [vp Hvp];
      [rewrite (ok_verts s Hok); lia|].
    rewrite Hvp, Ht. simpl. rewrite set_at_Some by eauto using at_range.
    simpl. rewrite at_fc_spec by lia. rewrite decide_True by done. simpl.
    rewrite decide_False
      by (pose proof (rank_nonneg (edges (fGraphV s)) p); lia).
    unfold assign. rewrite filter_all by (intros kv ?%Hkeys; lia).
    by rewrite (seglen_eq s c p vc vp).
  - destruct (chain_start _ _ _ _ H) as [p' Hp'].
    pose proof (at_range _ _ _ Hp').
    destruct (at_is_Some (verts (fGraphV s)) p) as [vp Hvp];
      [rewrite (ok_verts s Hok); lia|].
    rewrite Hvp, Ht. simpl. rewrite set_at_Some by eauto using at_range.
    simpl. rewrite at_fc_spec by lia. rewrite decide_False by done. simpl.
    unfold assign. rewrite filter_all by (intros kv ?%Hkeys; lia).
    pose proof (at_range _ _ _ Ht).
    rewrite (IH f _ _ (t + vlength (vsub vc vp))%R); [|lia| |].
    + rewrite <- app_assoc. simpl. rewrite list_insert_insert_eq.
      by rewrite (seglen_eq s c p vc vp).
    + by apply at_insert_eq.
    + intros kv [Hk%Hkeys|Hk]%elem_of_app; [lia|].
      apply list_elem_of_singleton in Hk as ->. simpl; lia.
Qed.

Lemma store_fractions_spec i cl t (f : Z → R) ks fr :
  at_ cl i = Some t → (∀ k, k ∈ ks → 0 ≤ k < size fr) → NoDup ks →
  ∃ fr',
    store_fractions i cl ((λ k, (k, f k)) <$> ks) fr = Some fr' ∧
    size fr' = size fr ∧
    (∀ k, k ∉ ks → at_ fr' k = at_ fr k) ∧
    (∀ k, k ∈ ks → at_ fr' k = Some (f k / t)%R).
Proof.
  intros Ht. revert fr. induction ks as [|k ks IH]; intros fr Hr Hnd.
  - exists fr. repeat split; try done. by intros k ?%elem_of_nil.
  - apply NoDup_cons in Hnd as [Hk Hnd]. simpl. rewrite Ht. simpl.
    assert (0 ≤ k < size fr) as Hkr by (apply Hr; by left).
    rewrite set_at_Some by done. simpl.
    destruct (IH (<[Z.to_nat k := (f k / t)%R]> fr))
      as (fr' & Hst & Hs & Ho & Hi); [|done|].
    { intros k' Hk'. rewrite size_insert. apply Hr. by right. }
    exists fr'. rewrite size_insert in Hs. split; [exact Hst|].
    repeat split; try done.
    + intros k' Hk'. apply not_elem_of_cons in Hk' as [??].
      rewrite Ho by done. apply at_insert_ne; lia.
    + intros k' [->|Hk']%elem_of_cons; [|by apply Hi].
      rewrite Ho by done. by apply at_insert_eq.
Qed.

(** A collapsed joint has exactly one child. *)
Lemma collapsed_one_child s k x y :
  full_ok s → ¬ retained (edges (fGraphV s)) k →
  at_ (fPrevV s) x = Some k → at_ (fPrevV s) y = Some k → x = y.
Proof.
  intros Hok Hr Hx Hy.
  assert (k ≠ 0) as Hk0 by (intros ->; apply Hr, retained_root).
  destruct (at_ (edges (fGraphV s)) k) as [e|] eqn:He.
  2:{ exfalso. apply Hr. right. by rewrite He. }
  assert (size e = 2) as He2.
  { destruct (decide (size e = 2)); [done|]. exfalso. apply Hr. right.
    rewrite He. simpl. congruence. }
  pose proof (ok_deg s Hok _ _ He) as Hd. rewrite decide_False in Hd by done.
  assert (∀ z, at_ (fPrevV s) z = Some k → z ∈ children (fPrevV s) k) as Hin.
  { intros z Hz. unfold children. apply list_elem_of_filter. split; [done|].
    apply elem_of_seqZ. apply at_range in Hz. lia. }
  apply Hin in Hx, Hy.
  destruct (children (fPrevV s) k) as [|z [|z' ch]].
  - by apply elem_of_nil in Hx.
  - apply list_elem_of_singleton in Hx, Hy. congruence.
  - unfold size in Hd, He2. simpl in Hd. lia.
Qed.

Lemma climb_from_parent s c p k :
  at_ (fPrevV s) c = Some p → ¬ retained (edges (fGraphV s)) p →
  climb s p k → climb s c k.
Proof.
  intros Hp Hr H. induction H as [|k q H IH Hq Hrq].
  - eapply climb_up; [apply climb_here|done|done].
  - eapply climb_up; done.
Qed.

Lemma chain_climb s c l a k : chain s c l a → k ∈ l → climb s c k.
Proof.
  intros H. induction H as [c p Hp H0 Hr|c p l a Hp Hr H IH].
  - intros ->%list_elem_of_singleton. apply climb_here.
  - intros [->|Hk]%elem_of_cons; [apply climb_here|].
    eapply climb_from_parent; eauto.
Qed.

Lemma climb_same_start s c c' k :
  full_ok s →
  retained (edges (fGraphV s)) c → retained (edges (fGraphV s)) c' →
  climb s c k → climb s c' k → c = c'.
Proof.
  intros Hok Hc Hc' H. revert c' Hc'.
  induction H as [|k p H IH Hp Hr]; intros c' Hc' H'.
  - inversion H' as [|k' p' H1 Hp' Hr']; [done|]. subst. done.
  - inversion H' as [|k' p' H1 Hp' Hr']; subst; [done|].
    assert (k = k') as <- by eauto using collapsed_one_child.
    by apply IH.
Qed.

(** Two compressed bones share no joint of the full skeleton. *)
Lemma chains_disjoint s c l a c' l' a' k :
  full_ok s →
  retained (edges (fGraphV s)) c → retained (edges (fGraphV s)) c' →
  chain s c l a → chain s c' l' a' → k ∈ l → k ∈ l' → c = c'.
Proof. eauto using climb_same_start, chain_climb. Qed.

(** The fourth loop. *)
Lemma measure_loop_spec s :
  full_ok s →
  let es := edges (fGraphV s) in
  let n := size (fPrevV s) in
  let fc := fc_spec es n in
  let cf := cf_spec es n in
  ∃ fr cl,
    for_loop (measure_body s fc cf) 1 (length cf - 1)
      (replicate (length (fPrevV s)) (-1)%R, replicate (length cf) 0%R)
      = Some (fr, cl) ∧
    size fr = n ∧ size cl = size cf ∧
    (0 < n → at_ fr 0 = Some (-1)%R) ∧
    ∀ j c l a, 0 < j → at_ cf j = Some c → chain s c l a →
      at_ cl j = Some (Rsum (seglen s <$> l)) ∧
      ∀ k, k ∈ l → at_ fr k = Some (seglen s k / Rsum (seglen s <$> l))%R.
Proof.
  intros Hok es n fc cf.
  destruct (for_loop_inv
    (λ i (st : list R * list R),
       ∃ fr cl, st = (fr, cl) ∧ size fr = n ∧ size cl = size cf ∧
         (0 < n → at_ fr 0 = Some (-1)%R) ∧
         (∀ j, i ≤ j < size cf → at_ cl j = Some 0%R) ∧
         ∀ j c l a, 0 < j < i → at_ cf j = Some c → chain s c l a →
           at_ cl j = Some (Rsum (seglen s <$> l)) ∧
           ∀ k, k ∈ l →
             at_ fr k = Some (seglen s k / Rsum (seglen s <$> l))%R)
    (measure_body s fc cf) 1 (length cf - 1)
    (replicate (length (fPrevV s)) (-1)%R, replicate (length cf) 0%R))
    as (st & Hloop & fr & cl & -> & Hsf & Hsc & H0 & _ & Hspec).
  - eexists _, _. split; [done|]. rewrite !size_replicate.
    repeat split; try done.
    + intros Hn. apply at_Some. split; [done|]. apply lookup_replicate_2.
      unfold n, size in Hn. simpl. lia.
    + intros j Hj. apply at_Some. split; [lia|]. apply lookup_replicate_2.
      unfold size in Hj. lia.
    + intros; lia.
    + intros; lia.
  - intros i st Hi (fr & cl & -> & Hsf & Hsc & H0 & Hrest & Hspec).
    assert (0 < i < size cf) as Hi' by (unfold size; lia).
    destruct (at_is_Some cf i) as [c Hc]; [lia|].
    destruct (at_cf_inv _ _ _ _ Hc) as (Hrc & Hcn & Hrk).
    assert (0 < c) as Hc0.
    { destruct (decide (c = 0)) as [->|]; [|lia].
      pose proof (at_cf_root es n ltac:(lia)) as Hroot.
      pose proof (at_NoDup_inj _ _ _ _ (NoDup_cf_spec es n) Hc Hroot). lia. }
    destruct (chain_exists s c Hok) as (l & a & Hch);
      [unfold n in Hcn; lia|].
    unfold measure_body. rewrite Hc. simpl.
    rewrite (measure_chain_spec s c l a i _ [] cl 0%R);
      [|done|done|unfold n, size in Hcn; lia|apply Hrest; lia
       |by intros kv ?%elem_of_nil].
    simpl.
    destruct (store_fractions_spec i
      (<[Z.to_nat i := foldl Rplus 0%R (seglen s <$> l)]> cl)
      (Rsum (seglen s <$> l)) (seglen s) l fr) as (fr' & Hst & Hs' & Ho & Hin).
    { apply at_insert_eq. lia. }
    { intros k Hk. pose proof (chain_range s c l a k Hok Hch Hk).
      unfold n in *. lia. }
    { by eapply chain_NoDup. }
    rewrite Hst. simpl. eexists. split; [done|].
    eexists _, _. split; [done|]. rewrite size_insert.
    split; [lia|]. split; [done|]. split; [|split].
    + intros Hn. rewrite Ho; [by apply H0|].
      intros Hk. pose proof (chain_range s c l a 0 Hok Hch Hk). lia.
    + intros j Hj. rewrite at_insert_ne by lia. apply Hrest. lia.
    + intros j c' l' a' Hj Hc' Hch'. destruct (decide (j = i)) as [->|Hne].
      * rewrite Hc in Hc'. injection Hc' as <-.
        destruct (chain_functional _ _ _ _ _ _ Hch Hch') as [<- <-].
        split; [apply at_insert_eq; lia|done].
      * destruct (Hspec j c' l' a' ltac:(lia) Hc' Hch') as [Hl Hf].
        rewrite at_insert_ne by lia. split; [done|].
        intros k Hk. rewrite Ho; [by apply Hf|]. intros Hk'.
        destruct (at_cf_inv _ _ _ _ Hc') as (Hrc' & _ & _).
        pose proof (chains_disjoint s c l a c' l' a' k Hok Hrc Hrc' Hch Hch'
                      Hk' Hk) as <-.
        apply Hne. eapply at_NoDup_inj; [apply NoDup_cf_spec|done|done].
  - exists fr, cl. do 4 (split; [done|]).
    intros j c l a Hj Hc Hch. apply (Hspec j c l a); try done.
    apply at_range in Hc. unfold size in Hc. lia.
Qed.

(** ** What compression computes *)

Lemma initCompressed_spec s :
  full_ok s → ∃ s', initCompressed s = Some s' ∧ compressed s s'.
Proof.
  intros Hok. unfold initCompressed.
  destruct (ok_fresh s Hok) as (Hcg & Hcp & Hcs & Hcf & Hfc & Hfr & Hcl).
  rewrite Hcg, Hcp, Hcs, Hcf, Hfc, Hfr, Hcl. simpl. rewrite !resize_nil.
  rewrite map_loop_spec by (rewrite (ok_edges s Hok); done).
  simpl. change (Z.of_nat (length (fPrevV s))) with (size (fPrevV s)).
  set (es := edges (fGraphV s)). set (n := size (fPrevV s)).
  set (cf := cf_spec es n). set (fc := fc_spec es n).
  destruct (link_loop_spec s Hok) as (csym & cprev & Hl & Hs1 & Hs2 & Hr & Hprev).
  fold es n cf fc in Hl, Hs1, Hs2, Hr, Hprev.
  rewrite !resize_nil, Hl. simpl.
  assert (length cprev = length cf) as Hlen by (unfold size in Hs2; lia).
  rewrite Hlen.
  destruct (edge_loop_spec cprev) as (ce & He & Hse & Hedges).
  { intros j p Hj Hp. destruct (at_is_Some cf j) as [c Hc].
    { apply at_range in Hp. lia. }
    destruct (Hprev j c Hj Hc) as (l & a & Hch & Hp').
    rewrite Hp in Hp'. injection Hp' as ->. rewrite Hs2.
    destruct (chain_facts s c l a Hok Hch) as (Ha & Hra & _).
    destruct (chain_start _ _ _ _ Hch) as [q Hq%at_range].
    apply rank_lt_size; [|done]. unfold n. lia. }
  rewrite Hlen in He. rewrite !resize_nil, He. simpl.
  destruct (measure_loop_spec s Hok) as (fr & cl & Hm & Hsf & Hsc & Hf0 & Hlens).
  fold es n cf fc in Hm, Hsf, Hsc, Hf0, Hlens. rewrite Hm. simpl.
  eexists. split; [done|]. split; simpl; try done.
  - repeat split; try done; lia.
  - rewrite length_replicate. done.
  - intros Hn. split; [|by apply Hf0]. apply Hr.
    pose proof (at_range _ _ _ (at_cf_root es n Hn)). fold cf in H. lia.
Qed.

Lemma built_ok cs :
  follows_contract emptySkeleton cs = true →
  full_ok (default emptySkeleton (exec_all cs emptySkeleton)).
Proof.
  intros H.
  destruct (follows_contract_ok cs emptySkeleton emptySkeleton_ok H)
    as (s & -> & Hok).
  done.
Qed.

(** C1. Compression retains exactly the root and the joints whose adjacency
    list in the full graph does not have two entries: the entry of
    [fcMapV] for a joint is a valid compressed index if and only if the
    joint is retained, it is -1 for every other joint, and the retained
    joints are numbered consecutively in increasing order of their full
    index. *)
Theorem compression_retains_non_degree_two s :
  full_ok s →
  ∃ s', initCompressed s = Some s' ∧
    cfMapV s' = filter (retained (edges (fGraphV s))) (seqZ 0 (size (fPrevV s))) ∧
    ∀ i, 0 ≤ i < size (fPrevV s) →
      ∃ m, at_ (fcMapV s') i = Some m ∧
        (0 ≤ m < size (cfMapV s') ↔ retained (edges (fGraphV s)) i) ∧
        (¬ retained (edges (fGraphV s)) i → m = -1) ∧
        (retained (edges (fGraphV s)) i →
           m = size (filter (retained (edges (fGraphV s))) (seqZ 0 i)) ∧
           at_ (cfMapV s') m = Some i).
Proof.
  intros Hok. destruct (initCompressed_spec s Hok) as (s' & Hs' & Hc).
  exists s'. split; [done|]. split; [apply Hc|].
  intros i Hi. rewrite (cp_fc s s' Hc), (cp_cf s s' Hc).
  rewrite at_fc_spec by done. eexists. split; [done|].
  set (es := edges (fGraphV s)).
  pose proof (size_nonneg (cf_spec es (size (fPrevV s)))).
  case_decide as Hr.
  - split; [split; [done|intros _; by apply rank_lt_size]|].
    split; [done|]. intros _. split; [done|]. by apply at_cf_rank.
  - split; [split; [lia|done]|]. split; [done|]. done.
Qed.

Lemma compression_retains_non_degree_two_witness :
  full_ok human_full ∧
  ∃ s', initCompressed human_full = Some s' ∧
    cfMapV s' = filter (retained (edges (fGraphV human_full)))
                  (seqZ 0 (size (fPrevV human_full))) ∧
    ∀ i, 0 ≤ i < size (fPrevV human_full) →
      ∃ m, at_ (fcMapV s') i = Some m ∧
        (0 ≤ m < size (cfMapV s') ↔ retained (edges (fGraphV human_full)) i) ∧
        (¬ retained (edges (fGraphV human_full)) i → m = -1) ∧
        (retained (edges (fGraphV human_full)) i →
           m = size (filter (retained (edges (fGraphV human_full))) (seqZ 0 i)) ∧
           at_ (cfMapV s') m = Some i).
Proof.
  split.
  - apply built_ok. vm_compute. reflexivity.
  - apply (compression_retains_non_degree_two human_full).
    apply built_ok. vm_compute. reflexivity.
Defined.

Example human_maps :
  (λ s, (fcMapV s, cfMapV s, cPrevV s)) <$> initCompressed human_full =
  Some ([0; -1; 1; 2; -1; -1; -1; 3; -1; -1; -1; 4; -1; -1; 5; -1; -1; 6],
        [0; 2; 3; 7; 11; 14; 17],
        [-1; 0; 0; 1; 1; 0; 0]).
Proof. vm_compute. reflexivity. Qed.

Example HumanSkeleton_tags :
  (λ s, (cFeetV s, cFatV s, cSymV s)) <$> HumanSkeleton =
  Some ([false; false; false; true; true; false; false],
        [true; true; true; false; false; false; false],
        [-1; -1; -1; -1; 3; -1; 5]).
Proof. vm_compute. reflexivity. Qed.

Lemma retained_rank_pos es n c :
  0 < c < n → retained es c → 0 < rank es c.
Proof.
  intros Hc Hr. pose proof (rank_nonneg es c).
  destruct (decide (rank es c = 0)) as [H0|]; [|lia].
  pose proof (at_cf_rank es n c ltac:(lia) Hr) as H1. rewrite H0 in H1.
  pose proof (at_cf_root es n ltac:(lia)) as H2. rewrite H1 in H2.
  injection H2 as ->. lia.
Qed.

(** C4. For every retained joint other than the root, the compressed
    parent is the compressed index of the first retained joint met when
    walking up the full parents and skipping the collapsed joints, and the
    compressed adjacency lists hold the edge in both directions. *)
Theorem compressed_parent_is_nearest_retained s :
  full_ok s →
  ∃ s', initCompressed s = Some s' ∧
    ∀ c, 0 < c < size (fPrevV s) → retained (edges (fGraphV s)) c →
      ∃ j l a p,
        at_ (fcMapV s') c = Some j ∧ 0 < j ∧
        chain s c l a ∧ retained (edges (fGraphV s)) a ∧
        (∀ k, k ∈ l → k ≠ c → ¬ retained (edges (fGraphV s)) k) ∧
        at_ (fcMapV s') a = Some p ∧ 0 ≤ p ∧
        at_ (cPrevV s') j = Some p ∧
        has_edge (edges (cGraphV s')) j p ∧
        has_edge (edges (cGraphV s')) p j.
Proof.
  intros Hok. destruct (initCompressed_spec s Hok) as (s' & Hs' & Hc).
  exists s'. split; [done|]. intros c Hcr Hr.
  pose proof (retained_rank_pos _ _ c Hcr Hr) as Hj.
  pose proof (at_cf_rank _ (size (fPrevV s)) c ltac:(lia) Hr) as Hcf.
  rewrite <- (cp_cf s s' Hc) in Hcf.
  destruct (cp_prev s s' Hc _ _ Hj Hcf) as (l & a & Hch & Hp).
  destruct (chain_facts s c l a Hok Hch) as (Ha & Hra & l' & -> & Hl').
  exists (rank (edges (fGraphV s)) c), (c :: l'), a,
    (rank (edges (fGraphV s)) a).
  rewrite (cp_fc s s' Hc). rewrite !at_fc_spec by lia.
  rewrite !decide_True by done.
  destruct (cp_edges s s' Hc _ _ Hj Hp) as [He1 He2].
  repeat split; try done.
  - intros k [->|Hk]%elem_of_cons Hne; [done|]. by apply Hl'.
  - apply rank_nonneg.
Qed.

Lemma compressed_parent_is_nearest_retained_witness :
  full_ok human_full ∧
  ∃ s', initCompressed human_full = Some s' ∧
    ∀ c, 0 < c < size (fPrevV human_full) →
      retained (edges (fGraphV human_full)) c →
      ∃ j l a p,
        at_ (fcMapV s') c = Some j ∧ 0 < j ∧
        chain human_full c l a ∧ retained (edges (fGraphV human_full)) a ∧
        (∀ k, k ∈ l → k ≠ c → ¬ retained (edges (fGraphV human_full)) k) ∧
        at_ (fcMapV s') a = Some p ∧ 0 ≤ p ∧
        at_ (cPrevV s') j = Some p ∧
        has_edge (edges (cGraphV s')) j p ∧
        has_edge (edges (cGraphV s')) p j.
Proof.
  split.
  - apply built_ok. vm_compute. reflexivity.
  - apply (compressed_parent_is_nearest_retained human_full).
    apply built_ok. vm_compute. reflexivity.
Defined.

(** C5. For every retained joint other than the root, the length stored
    for its compressed bone is the sum of the lengths of the full segments
    of the chain that runs from the joint up to, and not including, its
    nearest retained ancestor. *)
Theorem bone_length_is_chain_sum s :
  full_ok s →
  ∃ s', initCompressed s = Some s' ∧
    ∀ c, 0 < c < size (fPrevV s) → retained (edges (fGraphV s)) c →
      ∃ j l a,
        at_ (fcMapV s') c = Some j ∧ 0 < j ∧ chain s c l a ∧
        at_ (cLengthV s') j = Some (Rsum (seglen s <$> l)).
Proof.
  intros Hok. destruct (initCompressed_spec s Hok) as (s' & Hs' & Hc).
  exists s'. split; [done|]. intros c Hcr Hr.
  pose proof (retained_rank_pos _ _ c Hcr Hr) as Hj.
  pose proof (at_cf_rank _ (size (fPrevV s)) c ltac:(lia) Hr) as Hcf.
  rewrite <- (cp_cf s s' Hc) in Hcf.
  destruct (chain_exists s c Hok Hcr) as (l & a & Hch).
  exists (rank (edges (fGraphV s)) c), l, a.
  rewrite (cp_fc s s' Hc). rewrite at_fc_spec by lia.
  rewrite decide_True by done.
  repeat split; try done. by apply (cp_len s s' Hc _ c l a).
Qed.

Lemma bone_length_is_chain_sum_witness :
  full_ok human_full ∧
  ∃ s', initCompressed human_full = Some s' ∧
    ∀ c, 0 < c < size (fPrevV human_full) →
      retained (edges (fGraphV human_full)) c →
      ∃ j l a,
        at_ (fcMapV s') c = Some j ∧ 0 < j ∧ chain human_full c l a ∧
        at_ (cLengthV s') j = Some (Rsum (seglen human_full <$> l)).
Proof.
  split.
  - apply built_ok. vm_compute. reflexivity.
  - apply (bone_length_is_chain_sum human_full).
    apply built_ok. vm_compute. reflexivity.
Defined.

(** C2, as the code has it.  For every joint on the chain of a compressed
    bone whose length is not zero, [fcFractionV] holds the length of the
    joint's own segment (from the joint to its parent) divided by the
    length of the compressed bone; the entry of the root stays -1. *)
Theorem fraction_is_segment_over_bone s :
  full_ok s →
  ∃ s', initCompressed s = Some s' ∧
    (0 < size (fPrevV s) → at_ (fcFractionV s') 0 = Some (-1)%R) ∧
    ∀ c, 0 < c < size (fPrevV s) → retained (edges (fGraphV s)) c →
      ∃ j l a len,
        at_ (fcMapV s') c = Some j ∧ chain s c l a ∧
        at_ (cLengthV s') j = Some len ∧
        (len ≠ 0%R →
         ∀ k, k ∈ l → at_ (fcFractionV s') k = Some (seglen s k / len)%R).
Proof.
  intros Hok. destruct (initCompressed_spec s Hok) as (s' & Hs' & Hc).
  exists s'. split; [done|]. split; [intros Hn; by apply (cp_root s s' Hc)|].
  intros c Hcr Hr.
  pose proof (retained_rank_pos _ _ c Hcr Hr) as Hj.
  pose proof (at_cf_rank _ (size (fPrevV s)) c ltac:(lia) Hr) as Hcf.
  rewrite <- (cp_cf s s' Hc) in Hcf.
  destruct (chain_exists s c Hok Hcr) as (l & a & Hch).
  destruct (cp_len s s' Hc _ c l a Hj Hcf Hch) as [Hlen Hfr].
  exists (rank (edges (fGraphV s)) c), l, a, (Rsum (seglen s <$> l)).
  rewrite (cp_fc s s' Hc). rewrite at_fc_spec by lia.
  rewrite decide_True by done. do 3 (split; [done|]).
  intros _. exact Hfr.
Qed.

Lemma fraction_is_segment_over_bone_witness :
  full_ok human_full ∧
  ∃ s', initCompressed human_full = Some s' ∧
    (0 < size (fPrevV human_full) → at_ (fcFractionV s') 0 = Some (-1)%R) ∧
    ∀ c, 0 < c < size (fPrevV human_full) →
      retained (edges (fGraphV human_full)) c →
      ∃ j l a len,
        at_ (fcMapV s') c = Some j ∧ chain human_full c l a ∧
        at_ (cLengthV s') j = Some len ∧
        (len ≠ 0%R →
         ∀ k, k ∈ l →
           at_ (fcFractionV s') k = Some (seglen human_full k / len)%R).
Proof.
  split.
  - apply built_ok. vm_compute. reflexivity.
  - apply (fraction_is_segment_over_bone human_full).
    apply built_ok. vm_compute. reflexivity.
Defined.

(** *** A straight skeleton of three joints *)

Lemma line3_full :
  fPrevV line3 = [-1; 0; 1] ∧
  edges (fGraphV line3) = [[1]; [0; 2]; [1]] ∧
  verts (fGraphV line3) =
    [vscale (mkVec 0 0 0) (1 / 2); vscale (mkVec 2 0 0) (1 / 2);
     vscale (mkVec 6 0 0) (1 / 2)].
Proof. repeat split; vm_compute; reflexivity. Qed.

Lemma vlength_axis (a d : R) :
  (0 <= d)%R → (a * a = d * d)%R → vlength (mkVec a 0 0) = d.
Proof.
  intros Hd H. unfold vlength, vdot. simpl.
  replace (a * a + 0 * 0 + 0 * 0)%R with (d * d)%R by lra.
  by apply sqrt_square.
Qed.

Lemma line3_seglen : seglen line3 1 = 1%R ∧ seglen line3 2 = 2%R.
Proof.
  destruct line3_full as (Hp & _ & Hv).
  unfold seglen, parent, vert. rewrite Hp, Hv. simpl. unfold vsub. simpl.
  split.
  - replace (0 * (1 / 2) - 0 * (1 / 2))%R with 0%R by lra.
    apply vlength_axis; lra.
  - replace (0 * (1 / 2) - 0 * (1 / 2))%R with 0%R by lra.
    apply vlength_axis; lra.
Qed.

Lemma line3_chain : chain line3 2 [2; 1] 0.
Proof.
  destruct line3_full as (Hp & He & _).
  eapply chain_skip; [by rewrite Hp| |].
  - rewrite He. intros [H|H]; [done|]. by apply H.
  - eapply chain_stop; [by rewrite Hp|done|apply retained_root].
Qed.

Lemma line3_retained : retained (edges (fGraphV line3)) 2.
Proof. destruct line3_full as (_ & -> & _). by right. Qed.

Lemma line3_cumulative : cumulative_fraction line3 [2; 1] 1 = 1%R.
Proof.
  destruct line3_seglen as [H1 H2].
  unfold cumulative_fraction, Rsum. simpl. rewrite H1, H2. lra.
Qed.

(** C2, as stated, fails on the straight skeleton: the joint next to the
    retained ancestor gets the fraction 1/3, the share of its own segment,
    where the cumulative distance from the child end would give 1, and the
    fractions decrease toward the ancestor. *)
Lemma fractions_not_cumulative :
  ∃ s', initCompressed line3 = Some s' ∧
    chain line3 2 [2; 1] 0 ∧
    at_ (fcFractionV s') 2 = Some (2 / 3)%R ∧
    at_ (fcFractionV s') 1 = Some (1 / 3)%R ∧
    cumulative_fraction line3 [2; 1] 1 = 1%R ∧
    ¬ fractions_cumulative line3 s'.
Proof.
  assert (full_ok line3) as Hok by (apply built_ok; vm_compute; reflexivity).
  destruct (initCompressed_spec line3 Hok) as (s' & Hs' & Hc).
  exists s'. split; [done|]. split; [apply line3_chain|].
  assert (at_ (cfMapV s') 1 = Some 2) as Hcf.
  { rewrite (cp_cf _ _ Hc). destruct line3_full as (-> & -> & _).
    vm_compute. reflexivity. }
  destruct (cp_len _ _ Hc 1 2 [2; 1] 0 ltac:(lia) Hcf line3_chain)
    as [_ Hfr].
  destruct line3_seglen as [H1 H2].
  assert (Rsum (seglen line3 <$> [2; 1]) = 3%R) as Hsum.
  { unfold Rsum. simpl. rewrite H1, H2. lra. }
  rewrite Hsum in Hfr.
  pose proof (Hfr 2 ltac:(by left)) as Hf2.
  pose proof (Hfr 1 ltac:(right; by left)) as Hf1.
  rewrite H2 in Hf2. rewrite H1 in Hf1.
  split; [done|]. split; [done|]. split; [apply line3_cumulative|].
  intros Hclaim.
  pose proof (Hclaim 2 [2; 1] 0 1 ltac:(lia) line3_retained line3_chain
                ltac:(right; by left)) as H.
  rewrite line3_cumulative, Hf1 in H. injection H as H. lra.
Qed.

(** ** The builder *)

Lemma index_name_known m k i : m !! k = Some i → index_name m k = (i, m).
Proof. unfold index_name. by intros ->. Qed.

Lemma makeJoint_inv name pos previous s s' :
  makeJoint name pos previous s = Some s' →
  verts (fGraphV s') = verts (fGraphV s) ++ [vscale pos (1 / 2)] ∧
  fSymV s' = fSymV s ++ [-1] ∧
  ∃ prev names',
    fPrevV s' = fPrevV s ++ [prev] ∧ jointNames s' = names' ∧
    if decide (previous = "") then
      prev = -1 ∧ names' = <[name := size (fSymV s)]> (jointNames s)
    else
      index_name (<[name := size (fSymV s)]> (jointNames s)) previous
      = (prev, names').
Proof.
  unfold makeJoint. case_decide as Hp.
  - intros [= <-]. simpl. repeat split. by eexists _, _.
  - destruct (index_name _ previous) as [prev names'] eqn:E.
    intros (es1 & _ & (es2 & _ & [= <-])%bind_Some)%bind_Some. simpl.
    repeat split. by exists prev, names'.
Qed.

(** C7. For two names of existing joints, in either order,
    [makeSymmetric] stores the relation in the entry of the joint with the
    higher index, which then holds the lower index; no other entry of
    [fSymV] changes, in particular not that of the joint with the lower
    index. *)
Theorem makeSymmetric_stores_on_higher_index name1 name2 i1 i2 s :
  jointNames s !! name1 = Some i1 → jointNames s !! name2 = Some i2 →
  0 ≤ i1 < size (fSymV s) → 0 ≤ i2 < size (fSymV s) →
  ∃ s', makeSymmetric name1 name2 s = Some s' ∧
    makeSymmetric name2 name1 s = Some s' ∧
    at_ (fSymV s') (Z.max i1 i2) = Some (Z.min i1 i2) ∧
    (∀ k, k ≠ Z.max i1 i2 → at_ (fSymV s') k = at_ (fSymV s) k) ∧
    (i1 ≠ i2 → at_ (fSymV s') (Z.min i1 i2) = at_ (fSymV s) (Z.min i1 i2)).
Proof.
  intros H1 H2 Hr1 Hr2.
  exists (with_full s (fGraphV s) (fPrevV s)
            (<[Z.to_nat (Z.max i1 i2) := Z.min i1 i2]> (fSymV s))
            (jointNames s)).
  assert (∀ n1 n2 j1 j2,
    jointNames s !! n1 = Some j1 → jointNames s !! n2 = Some j2 →
    0 ≤ j1 < size (fSymV s) → 0 ≤ j2 < size (fSymV s) →
    makeSymmetric n1 n2 s =
    Some (with_full s (fGraphV s) (fPrevV s)
            (<[Z.to_nat (Z.max j1 j2) := Z.min j1 j2]> (fSymV s))
            (jointNames s))) as Hrun.
  { intros n1 n2 j1 j2 Hn1 Hn2 Hj1 Hj2. unfold makeSymmetric.
    rewrite (index_name_known _ _ _ Hn1), (index_name_known _ _ _ Hn2).
    case_decide; rewrite set_at_Some by lia; simpl; do 3 f_equal; lia. }
  split; [by apply Hrun|].
  split; [rewrite (Z.max_comm i1 i2), (Z.min_comm i1 i2); by apply Hrun|].
  simpl. split; [apply at_insert_eq; lia|].
  split; [intros k Hk; apply at_insert_ne; lia|].
  intros Hne. apply at_insert_ne; lia.
Qed.

Lemma makeSymmetric_stores_on_higher_index_witness :
  ∃ s', makeSymmetric "c" "b" line3 = Some s' ∧
    makeSymmetric "b" "c" line3 = Some s' ∧
    at_ (fSymV s') (Z.max 2 1) = Some (Z.min 2 1) ∧
    (∀ k, k ≠ Z.max 2 1 → at_ (fSymV s') k = at_ (fSymV line3) k) ∧
    (2 ≠ 1 → at_ (fSymV s') (Z.min 2 1) = at_ (fSymV line3) (Z.min 2 1)).
Proof.
  apply (makeSymmetric_stores_on_higher_index "c" "b" 2 1 line3).
  - vm_compute. reflexivity.
  - vm_compute. reflexivity.
  - vm_compute. split; [discriminate|reflexivity].
  - vm_compute. split; [discriminate|reflexivity].
Defined.

Lemma index_name_other m k i m' k' :
  index_name m k = (i, m') → k' ≠ k → m' !! k' = m !! k'.
Proof.
  unfold index_name. destruct (m !! k); intros [= <- <-] Hne; [done|].
  by rewrite lookup_insert_ne.
Qed.

Lemma index_name_nonneg_unknown m k i m' :
  index_name m k = (i, m') → m !! k = None → i = 0.
Proof. unfold index_name. intros H Hn. rewrite Hn in H. congruence. Qed.

(** C3, as the code has it.  The builder never rejects a name.  On a
    skeleton that has joints, [makeJoint] with a parent name other than the
    new name completes, adds the joint and binds the name to it, whether or
    not the name was bound before; a parent name that was never added is
    entered in the name table for joint 0 and the new joint is attached to
    joint 0.  [makeSymmetric] completes too; a name that was never added is
    entered in the name table for joint 0, and joint 0 is recorded as the
    partner of the other joint. *)
Theorem builder_never_rejects_names s name pos previous name1 name2 :
  full_ok s → fPrevV s ≠ [] → previous ≠ "" → previous ≠ name →
  (∃ s', makeJoint name pos previous s = Some s' ∧
     size (fPrevV s') = size (fPrevV s) + 1 ∧
     jointNames s' !! name = Some (size (fPrevV s)) ∧
     (jointNames s !! previous = None →
        fPrevV s' = fPrevV s ++ [0] ∧ jointNames s' !! previous = Some 0)) ∧
  (∃ s', makeSymmetric name1 name2 s = Some s' ∧
     (jointNames s !! name1 = None →
        jointNames s' !! name1 = Some 0 ∧
        ∃ i2, jointNames s' !! name2 = Some i2 ∧
              at_ (fSymV s') i2 = Some 0) ∧
     (jointNames s !! name2 = None →
        jointNames s' !! name2 = Some 0 ∧
        ∃ i1, jointNames s' !! name1 = Some i1 ∧
              at_ (fSymV s') i1 = Some 0)).
Proof.
  intros Hok Hne Hp Hpn. split.
  - destruct (makeJoint_child_ok name pos previous s Hok Hne Hp Hpn)
      as (s' & Hs' & _).
    exists s'. split; [done|].
    destruct (makeJoint_inv _ _ _ _ _ Hs')
      as (_ & _ & prev & names' & Hprev & Hnames & Hidx).
    rewrite decide_False in Hidx by done.
    rewrite Hprev, Hnames, size_app, size_singleton.
    split; [done|]. split.
    + rewrite (index_name_other _ _ _ _ name Hidx) by done.
      rewrite lookup_insert_eq. by rewrite (ok_syms s Hok).
    + intros Hun.
      assert (prev = 0) as ->.
      { eapply index_name_nonneg_unknown; [done|].
        by rewrite lookup_insert_ne. }
      split; [done|]. by apply index_name_lookup in Hidx as (? & _).
  - destruct (makeSymmetric_total name1 name2 s Hok Hne) as [s' Hs'].
    exists s'. split; [done|]. revert Hs'. unfold makeSymmetric.
    destruct (index_name (jointNames s) name1) as [i1 names1] eqn:E1.
    destruct (index_name names1 name2) as [i2 names2] eqn:E2.
    pose proof (index_name_lookup _ _ _ _ E1) as (Hl1 & Ho1 & _).
    pose proof (index_name_lookup _ _ _ _ E2) as (Hl2 & Ho2 & _).
    assert (0 ≤ i1) as Hi1.
    { destruct Ho1 as [H|[_ ->]]; [|done]. apply (ok_names s Hok) in H. lia. }
    assert (names2 !! name1 = Some i1) as Hn1.
    { destruct (decide (name1 = name2)) as [<-|Hd].
      - destruct Ho2 as [H|[H _]]; congruence.
      - by rewrite (index_name_other _ _ _ _ name1 E2). }
    assert (0 ≤ i2) as Hi2.
    { destruct Ho2 as [H|[_ ->]]; [|done].
      destruct (decide (name1 = name2)) as [<-|Hd]; [congruence|].
      rewrite (index_name_other _ _ _ _ name2 E1) in H by done.
      apply (ok_names s Hok) in H. lia. }
    case_decide as Hgt;
      intros (sym & [Hin ->]%set_at_inv & [= <-])%bind_Some; simpl.
    + split.
      * intros Hun. pose proof (index_name_nonneg_unknown _ _ _ _ E1 Hun). lia.
      * intros Hun. assert (i2 = 0) as ->.
        { destruct Ho2 as [H|[_ ->]]; [|done].
          destruct (decide (name1 = name2)) as [<-|Hd].
          - rewrite Hl1 in H. injection H as <-.
            destruct Ho1 as [H|[_ ->]]; [congruence|done].
          - rewrite (index_name_other _ _ _ _ name2 E1) in H by done.
            congruence. }
        split; [done|]. exists i1. split; [done|]. by apply at_insert_eq.
    + split.
      * intros Hun. pose proof (index_name_nonneg_unknown _ _ _ _ E1 Hun).
        subst i1. split; [done|]. exists i2. split; [done|].
        by apply at_insert_eq.
      * intros Hun. assert (i2 = 0) as ->.
        { destruct Ho2 as [H|[_ ->]]; [|done].
          destruct (decide (name1 = name2)) as [<-|Hd].
          - rewrite Hl1 in H. injection H as <-.
            destruct Ho1 as [H|[_ ->]]; [congruence|done].
          - rewrite (index_name_other _ _ _ _ name2 E1) in H by done.
            congruence. }
        assert (i1 = 0) as -> by lia.
        split; [done|]. exists 0. split; [done|]. by apply at_insert_eq.
Qed.

Lemma builder_never_rejects_names_witness :
  (∃ s', makeJoint "b" (mkVec 0 0 0) "nobody" line3 = Some s' ∧
     size (fPrevV s') = size (fPrevV line3) + 1 ∧
     jointNames s' !! "b" = Some (size (fPrevV line3)) ∧
     (jointNames line3 !! "nobody" = None →
        fPrevV s' = fPrevV line3 ++ [0] ∧
        jointNames s' !! "nobody" = Some 0)) ∧
  (∃ s', makeSymmetric "c" "ghost" line3 = Some s' ∧
     (jointNames line3 !! "c" = None →
        jointNames s' !! "c" = Some 0 ∧
        ∃ i2, jointNames s' !! "ghost" = Some i2 ∧
              at_ (fSymV s') i2 = Some 0) ∧
     (jointNames line3 !! "ghost" = None →
        jointNames s' !! "ghost" = Some 0 ∧
        ∃ i1, jointNames s' !! "c" = Some i1 ∧
              at_ (fSymV s') i1 = Some 0)).
Proof.
  apply (builder_never_rejects_names line3 "b" (mkVec 0 0 0) "nobody"
           "c" "ghost").
  - apply built_ok. vm_compute. reflexivity.
  - vm_compute. discriminate.
  - discriminate.
  - discriminate.
Defined.

(** C3, as stated, fails: on the straight skeleton a joint whose parent
    name was never added is accepted and attached to joint 0, a symmetry
    with a name that was never added is accepted and recorded against
    joint 0, and a joint whose name is already in use is accepted and takes
    the name over; each call completes and returns a changed skeleton. *)
Lemma builder_accepts_malformed_calls :
  jointNames line3 !! "nobody" = None ∧
  jointNames line3 !! "b" = Some 1 ∧
  (λ s, (fPrevV s, jointNames s !! "nobody")) <$>
    makeJoint "d" (mkVec 0 0 0) "nobody" line3
    = Some ([-1; 0; 1; 0], Some 0) ∧
  (λ s, (fSymV s, jointNames s !! "nobody")) <$>
    makeSymmetric "c" "nobody" line3
    = Some ([-1; -1; 0], Some 0) ∧
  (λ s, (fPrevV s, jointNames s !! "b")) <$>
    makeJoint "b" (mkVec 0 0 0) "a" line3
    = Some ([-1; 0; 1; 0], Some 3).
Proof. repeat split; vm_compute; reflexivity. Qed.

(** ** Scaling *)

Lemma scale_full_loop f (fv : list PVector3) :
  for_loop (scale_full_body f) 0 (length fv) fv
  = Some ((λ v, vscale v f) <$> fv).
Proof.
  destruct (for_loop_inv
    (λ i (st : list PVector3),
       st = ((λ v, vscale v f) <$> take (Z.to_nat i) fv)
            ++ drop (Z.to_nat i) fv)
    (scale_full_body f) 0 (length fv) fv) as (st & -> & ->).
  - done.
  - intros i st Hi ->. unfold scale_full_body.
    destruct (lookup_lt_is_Some_2 fv (Z.to_nat i)) as [v Hv]; [lia|].
    assert (length ((λ v, vscale v f) <$> take (Z.to_nat i) fv)
            = Z.to_nat i) as Hlen
      by (rewrite length_fmap, length_take; lia).
    assert (at_ (((λ v, vscale v f) <$> take (Z.to_nat i) fv)
                 ++ drop (Z.to_nat i) fv) i = Some v) as ->.
    { apply at_Some. split; [lia|].
      rewrite lookup_app_r by lia. rewrite Hlen, Nat.sub_diag.
      rewrite lookup_drop. by rewrite Nat.add_0_r. }
    simpl. rewrite set_at_Some
      by (unfold size; rewrite length_app, Hlen, length_drop; lia).
    eexists. split; [done|].
    replace (Z.to_nat (i + 1)) with (S (Z.to_nat i)) by lia.
    rewrite (take_S_r _ _ _ Hv), fmap_app, <- app_assoc. simpl.
    rewrite (drop_S _ _ _ Hv).
    replace (Z.to_nat i) with
      (length ((λ v, vscale v f) <$> take (Z.to_nat i) fv) + 0)%nat at 1
      by lia.
    by rewrite insert_app_r.
  - rewrite Z.add_0_l, Nat2Z.id, firstn_all, drop_all. by rewrite app_nil_r.
Qed.

Lemma scale_comp_loop f (cv : list PVector3) (cl : list R) :
  size cl = size cv →
  for_loop (scale_comp_body f) 0 (length cv) (cv, cl)
  = Some ((λ v, vscale v f) <$> cv, (λ l, l * f)%R <$> cl).
Proof.
  intros Hs. assert (length cl = length cv) as Hl by (unfold size in Hs; lia).
  destruct (for_loop_inv
    (λ i (st : list PVector3 * list R),
       st = (((λ v, vscale v f) <$> take (Z.to_nat i) cv)
               ++ drop (Z.to_nat i) cv,
             ((λ l, l * f)%R <$> take (Z.to_nat i) cl)
               ++ drop (Z.to_nat i) cl))
    (scale_comp_body f) 0 (length cv) (cv, cl)) as (st & -> & ->).
  - done.
  - intros i st Hi ->. unfold scale_comp_body.
    destruct (lookup_lt_is_Some_2 cv (Z.to_nat i)) as [v Hv]; [lia|].
    destruct (lookup_lt_is_Some_2 cl (Z.to_nat i)) as [l Hcl]; [lia|].
    assert (length ((λ v, vscale v f) <$> take (Z.to_nat i) cv)
            = Z.to_nat i) as Hlen
      by (rewrite length_fmap, length_take; lia).
    assert (length ((λ l, l * f)%R <$> take (Z.to_nat i) cl)
            = Z.to_nat i) as Hlen'
      by (rewrite length_fmap, length_take; lia).
    assert (at_ (((λ v, vscale v f) <$> take (Z.to_nat i) cv)
                 ++ drop (Z.to_nat i) cv) i = Some v) as ->.
    { apply at_Some. split; [lia|].
      rewrite lookup_app_r by lia. rewrite Hlen, Nat.sub_diag.
      rewrite lookup_drop. by rewrite Nat.add_0_r. }
    simpl. rewrite set_at_Some
      by (unfold size; rewrite length_app, Hlen, length_drop; lia).
    simpl.
    assert (at_ (((λ l, l * f)%R <$> take (Z.to_nat i) cl)
                 ++ drop (Z.to_nat i) cl) i = Some l) as ->.
    { apply at_Some. split; [lia|].
      rewrite lookup_app_r by lia. rewrite Hlen', Nat.sub_diag.
      rewrite lookup_drop. by rewrite Nat.add_0_r. }
    simpl. rewrite set_at_Some
      by (unfold size; rewrite length_app, Hlen', length_drop; lia).
    eexists. split; [done|].
    replace (Z.to_nat (i + 1)) with (S (Z.to_nat i)) by lia.
    rewrite (take_S_r _ _ _ Hv), (take_S_r _ _ _ Hcl), !fmap_app,
      <- !app_assoc. simpl.
    rewrite (drop_S _ _ _ Hv), (drop_S _ _ _ Hcl). f_equal.
    + replace (Z.to_nat i) with
        (length ((λ v, vscale v f) <$> take (Z.to_nat i) cv) + 0)%nat at 1
        by lia.
      by rewrite insert_app_r.
    + replace (Z.to_nat i) with
        (length ((λ l, l * f)%R <$> take (Z.to_nat i) cl) + 0)%nat at 1
        by lia.
      by rewrite insert_app_r.
  - rewrite Z.add_0_l, Nat2Z.id. rewrite <- Hl at 3 4.
    rewrite !firstn_all, !drop_all. by rewrite !app_nil_r.
Qed.

Lemma scale_eq f s :
  size (cLengthV s) = size (verts (cGraphV s)) → scale f s = Some (scaled f s).
Proof.
  intros Hs. unfold scale. rewrite scale_full_loop. simpl.
  rewrite scale_comp_loop by done. done.
Qed.



(** Compression leaves as many bone lengths as compressed joints. *)
Lemma compressed_scalable s s' :
  compressed s s' → size (cLengthV s') = size (verts (cGraphV s')).
Proof.
  intros Hc. rewrite (cp_verts s s' Hc), size_fmap.
  by destruct (cp_sizes s s' Hc) as (_ & _ & _ & -> & _).
Qed.



(** ** Skeletons read from a file *)

Lemma makeJoint_sized name pos previous s :
  sized s → ∃ s', makeJoint name pos previous s = Some s' ∧ sized s'.
Proof.
  intros [He Hn]. unfold makeJoint.
  case_decide as Hp.
  - eexists. split; [done|]. split; simpl.
    + rewrite <- He, resize_succ, !size_app. by rewrite He.
    + intros k i. rewrite size_app, size_singleton, lookup_insert.
      case_decide as Hd;
        [intros [= <-]; pose proof (size_nonneg (fSymV s)); lia|].
      intros H%Hn. lia.
  - destruct (index_name _ previous) as [prev names'] eqn:E.
    apply index_name_lookup in E as (_ & Hold & Hnames).
    pose proof (size_nonneg (fSymV s)) as Hnn.
    assert (∀ k i, <[name:=size (fSymV s)]> (jointNames s) !! k = Some i →
                   0 ≤ i < size (fSymV s) + 1) as Hn1.
    { intros k i. rewrite lookup_insert.
      case_decide as Hd; [intros [= <-]; lia|]. intros H%Hn. lia. }
    assert (0 ≤ prev < size (fSymV s) + 1) as Hprev.
    { destruct Hold as [H%Hn1|[_ ->]]; lia. }
    rewrite <- He, resize_succ.
    destruct (at_is_Some (edges (fGraphV s) ++ [[]]) (size (edges (fGraphV s))))
      as [e0 H0]; [rewrite size_app, size_singleton; lia|].
    rewrite (push_at_Some _ _ _ _ H0). simpl.
    destruct (at_is_Some
      (<[Z.to_nat (size (edges (fGraphV s))) := e0 ++ [prev]]>
         (edges (fGraphV s) ++ [[]])) prev) as [e1 H1];
      [rewrite size_insert, size_app, size_singleton; lia|].
    rewrite (push_at_Some _ _ _ _ H1). simpl.
    eexists. split; [done|]. split; simpl.
    + rewrite !size_insert, !size_app, !size_singleton. lia.
    + intros k i [H%Hn1|[_ ->]]%Hnames; rewrite size_app, size_singleton; lia.
Qed.

Lemma vscale_double_half p : vscale (vscale p 2) (1 / 2) = p.
Proof. destruct p. unfold vscale. simpl. f_equal; lra. Qed.

Lemma read_joint_spec scan dflt line s :
  sized s →
  ∃ s', read_joint scan dflt line s = Some s' ∧ sized s' ∧
    verts (fGraphV s') =
    verts (fGraphV s) ++ option_list (parsed_point scan dflt line).
Proof.
  intros Hs.
  destruct line as [|name [|w1 [|w2 [|w3 [|w4 rest]]]]]; simpl;
    try (exists s; by rewrite app_nil_r).
  destruct (makeJoint_sized name
    (vscale (mkVec (scanned scan w1 (vx dflt)) (scanned scan w2 (vy dflt))
                   (scanned scan w3 (vz dflt))) 2)
    (if decide (w4 = "-1") then "" else w4) s Hs) as (s' & Hs' & Hsz).
  exists s'. split; [done|]. split; [done|].
  apply makeJoint_inv in Hs' as (-> & _). by rewrite vscale_double_half.
Qed.

Lemma read_joints_spec scan dflt lines s :
  sized s →
  ∃ s', read_joints scan dflt lines s = Some s' ∧ sized s' ∧
    verts (fGraphV s') =
    verts (fGraphV s) ++ omap (parsed_point scan dflt) lines.
Proof.
  revert s. induction lines as [|line lines IH]; intros s Hs.
  - exists s. by rewrite app_nil_r.
  - destruct (read_joint_spec scan dflt line s Hs) as (s1 & H1 & Hs1 & Hv1).
    destruct (IH s1 Hs1) as (s' & H' & Hs' & Hv').
    exists s'. unfold read_joints in *. simpl. rewrite H1. simpl.
    split; [done|]. split; [done|]. rewrite Hv', Hv1, <- app_assoc.
    f_equal. by destruct (parsed_point scan dflt line).
Qed.

Lemma initCompressed_full s s' :
  initCompressed s = Some s' → fGraphV s' = fGraphV s.
Proof.
  unfold initCompressed.
  intros ([fc cf] & _ & H)%bind_Some. simpl in H.
  apply bind_Some in H as ([[cv csym] cprev] & _ & H). simpl in H.
  apply bind_Some in H as (ce & _ & H).
  apply bind_Some in H as ([fr cl] & _ & H). simpl in H.
  by injection H as <-.
Qed.

Lemma read_joints_exec_all scan dflt lines s :
  read_joints scan dflt lines s
  = exec_all (omap (file_call scan dflt) lines) s.
Proof.
  unfold read_joints, exec_all.
  generalize (Some s). induction lines as [|line lines IH]; intros acc.
  - done.
  - simpl. rewrite IH. clear IH.
    destruct line as [|name [|w1 [|w2 [|w3 [|w4 rest]]]]]; simpl;
      by destruct acc.
Qed.

(** A file whose lines follow the builder's contract yields a skeleton. *)
Lemma FileSkeleton_returns scan dflt filename lines :
  follows_contract emptySkeleton (omap (file_call scan dflt) lines) = true →
  is_Some (FileSkeleton scan dflt filename (Some lines)).2.
Proof.
  intros H.
  destruct (follows_contract_ok _ _ emptySkeleton_ok H) as (s1 & H1 & Hok).
  destruct (initCompressed_spec s1 Hok) as (s' & Hs' & _).
  simpl. rewrite read_joints_exec_all, H1. simpl. by rewrite Hs'.
Qed.

(** C9. When the file cannot be opened, [FileSkeleton] writes the error
    and the file name to the diagnostic output and leaves the skeleton as
    it was default-constructed: no joints and no compressed data. *)
Theorem FileSkeleton_unopened_is_empty scan dflt filename :
  ∃ s, FileSkeleton scan dflt filename None
       = (["Error opening file " +:+ filename], Some s) ∧
    verts (fGraphV s) = [] ∧ edges (fGraphV s) = [] ∧
    fPrevV s = [] ∧ fSymV s = [] ∧ jointNames s = ∅ ∧
    verts (cGraphV s) = [] ∧ edges (cGraphV s) = [] ∧
    cPrevV s = [] ∧ cSymV s = [] ∧ cFeetV s = [] ∧ cFatV s = [] ∧
    cfMapV s = [] ∧ fcMapV s = [] ∧ fcFractionV s = [] ∧ cLengthV s = [].
Proof. exists emptySkeleton. repeat split. Qed.

Lemma parsed_joint_lines scan dflt lines :
  Some <$> omap (parsed_point scan dflt) lines
  = parsed_point scan dflt <$> joint_lines lines.
Proof.
  unfold joint_lines. induction lines as [|line lines IH]; [done|].
  destruct line as [|name [|w1 [|w2 [|w3 [|w4 rest]]]]];
    try (rewrite filter_cons_False by (simpl; lia); exact IH).
  rewrite filter_cons_True by (simpl; lia). rewrite fmap_cons, <- IH.
  reflexivity.
Qed.

Lemma size_parsed_joint_lines scan dflt lines :
  size (omap (parsed_point scan dflt) lines) = size (joint_lines lines).
Proof.
  rewrite <- (size_fmap Some), parsed_joint_lines. apply size_fmap.
Qed.

(** The numbers of the straight skeleton's file are far below half the
    largest double. *)
Lemma small_can_be_doubled : ∀ x, x ∈ [0%R; 1%R; 3%R] → can_be_doubled x.
Proof.
  assert (6 <= DBL_MAX)%R as Hm.
  { unfold DBL_MAX. apply IZR_le. by vm_compute. }
  intros x Hx. unfold can_be_doubled. rewrite !elem_of_cons in Hx.
  destruct Hx as [->|[->|[->|Hx]]]; [| | |by apply elem_of_nil in Hx];
    rewrite Rabs_pos_eq by lra; lra.
Qed.

(** C10. The joints of a file-driven skeleton are stored at the
    coordinates read from the file.  The loop always completes and makes
    one joint per line of five words or more, in the order of the lines;
    a coordinate that [sscanf] reads from its word, and that is small
    enough to be doubled without overflow, is stored as it was read,
    since [FileSkeleton] doubles the point it hands to [makeJoint], which
    halves it; compression leaves the positions alone.  The built-in
    human template is stored at half the positions it is written with. *)
Theorem FileSkeleton_stores_file_coordinates scan dflt filename lines :
  ∃ s1, read_joints scan dflt lines emptySkeleton = Some s1 ∧
    (FileSkeleton scan dflt filename (Some lines)).2 = initCompressed s1 ∧
    (∀ s', initCompressed s1 = Some s' →
       verts (fGraphV s') = verts (fGraphV s1)) ∧
    size (verts (fGraphV s1)) = size (joint_lines lines) ∧
    (∀ i name w1 w2 w3 w4 rest,
       at_ (joint_lines lines) i
         = Some (name :: w1 :: w2 :: w3 :: w4 :: rest) →
       ∃ p, at_ (verts (fGraphV s1)) i = Some p ∧
         (∀ x, scan w1 = Some x → can_be_doubled x → vx p = x) ∧
         (∀ y, scan w2 = Some y → can_be_doubled y → vy p = y) ∧
         (∀ z, scan w3 = Some z → can_be_doubled z → vz p = z)) ∧
    verts (fGraphV human_full)
      = (λ pos, vscale pos (1 / 2)) <$> authored human_calls.
Proof.
  destruct (read_joints_spec scan dflt lines emptySkeleton)
    as (s1 & H1 & _ & Hv).
  { split; [done|]. intros k i. simpl. by rewrite lookup_empty. }
  simpl in Hv. exists s1. split; [done|].
  split; [simpl; by rewrite H1|]. split.
  { intros s' E. by rewrite (initCompressed_full _ _ E). }
  split; [rewrite Hv; apply size_parsed_joint_lines|]. split.
  - intros i name w1 w2 w3 w4 rest Hi.
    pose proof (at_fmap Some (verts (fGraphV s1)) i) as Hp.
    rewrite Hv, parsed_joint_lines, at_fmap, Hi in Hp. simpl in Hp.
    rewrite <- Hv in Hp.
    destruct (at_ (verts (fGraphV s1)) i) as [p|]; [|done].
    injection Hp as Hp. exists p. split; [done|]. subst p. simpl.
    unfold scanned. split; [|split]; intros x Hx _; by rewrite Hx.
  - vm_compute. reflexivity.
Qed.

Lemma FileSkeleton_stores_file_coordinates_witness :
  ∃ s1,
    read_joints toy_scan (mkVec 0 0 0) line3_file emptySkeleton = Some s1 ∧
    at_ (verts (fGraphV s1)) 2 = Some (mkVec 3 0 0).
Proof.
  destruct (FileSkeleton_stores_file_coordinates toy_scan (mkVec 0 0 0)
              "line3.skel" line3_file) as (s1 & H1 & _ & _ & _ & Hc & _).
  exists s1. split; [exact H1|].
  destruct (Hc 2 "c" "3" "0" "0" "b" [] eq_refl) as (p & Hp & Hx & Hy & Hz).
  rewrite Hp. destruct p as [x y z]. simpl in *.
  rewrite (Hx 3%R eq_refl), (Hy 0%R eq_refl), (Hz 0%R eq_refl);
    [done|apply small_can_be_doubled..]; set_solver.
Defined.

Example FileSkeleton_line3 :
  (λ s, (verts (fGraphV s), fPrevV s, cfMapV s, cPrevV s)) <$>
    (FileSkeleton toy_scan (mkVec 0 0 0) "line3.skel"
       (Some [["a"; "0"; "0"; "0"; "-1"]; ["b"; "1"; "0"; "0"; "a"]; [];
              ["c"; "3"; "0"; "0"; "b"]])).2
  = Some ([mkVec (0 * 2 * (1 / 2)) (0 * 2 * (1 / 2)) (0 * 2 * (1 / 2));
           mkVec (1 * 2 * (1 / 2)) (0 * 2 * (1 / 2)) (0 * 2 * (1 / 2));
           mkVec (3 * 2 * (1 / 2)) (0 * 2 * (1 / 2)) (0 * 2 * (1 / 2))],
          [-1; 0; 1], [0; 2], [-1; 0]).
Proof. vm_compute. reflexivity. Qed.

(** ** Ray queries against a mesh *)

#[global] Instance nearer_total d pt : Total (nearer d pt).
Proof.
  intros a b. unfold nearer.
  destruct (Rle_or_lt (signed_distance d pt a.1) (signed_distance d pt b.1));
    [by left|right]. by apply Rlt_le.
Qed.

(** C8. The points returned by a query come in the order of their signed
    distance from the query point along the query direction, nearest
    first, and the indices stored in [outIndices] are those of the
    triangles the points lie on, in the same order. *)
Theorem intersect_sorted_near_to_far getIndex inside ray I pt :
  let '(out, outIndices) := intersect getIndex inside ray I pt in
  Sorted Rle (signed_distance (dir I) pt <$> out) ∧
  Forall2 (λ q t, hit inside ray I pt t = Some (q, t)) out outIndices.
Proof.
  unfold intersect. simpl.
  set (hs := omap (hit inside ray I pt) (candidates getIndex I pt)).
  pose proof (Sorted_merge_sort (nearer (dir I) pt) hs) as Hs.
  pose proof (merge_sort_Permutation (nearer (dir I) pt) hs) as Hp.
  split.
  - rewrite <- list_fmap_compose.
    eapply (Sorted_fmap _ (nearer (dir I) pt)); [|exact Hs]. by intros a b.
  - apply Forall2_fmap, Forall_Forall2_diag, Forall_forall.
    intros [q t] Hin. rewrite Hp in Hin.
    apply list_elem_of_omap in Hin as (t' & _ & Ht'). simpl.
    assert (t' = t) as ->; [|done].
    unfold hit in Ht'. destruct (inside I t' _); [|done].
    destruct (ray I t' pt); simpl in Ht'; [|done]. by injection Ht'.
Qed.

(** * Further properties *)

(** ** Loops *)

Lemma for_loop_post {St} (Inv : Z → St → Prop) body lo cnt (st st' : St) :
  Inv lo st →
  (∀ i st st1, lo ≤ i < lo + Z.of_nat cnt → Inv i st →
               body i st = Some st1 → Inv (i + 1) st1) →
  for_loop body lo cnt st = Some st' → Inv (lo + Z.of_nat cnt) st'.
Proof.
  revert lo st. induction cnt as [|cnt IH]; intros lo st H0 Hstep.
  - intros [= <-]. by replace (lo + Z.of_nat 0) with lo by lia.
  - simpl. intros (st1 & Hb & Hl)%bind_Some.
    replace (lo + Z.of_nat (S cnt)) with (lo + 1 + Z.of_nat cnt) by lia.
    apply (IH (lo + 1) st1); [|intros i st2 st3 ?; apply Hstep; lia|done].
    apply (Hstep lo st); [lia|done|done].
Qed.

Lemma for_loop_fails {St} body lo cnt (st : St) i :
  lo ≤ i < lo + Z.of_nat cnt → (∀ st, body i st = None) →
  for_loop body lo cnt st = None.
Proof.
  revert lo st. induction cnt as [|cnt IH]; intros lo st Hi Hb; [lia|].
  simpl. destruct (decide (i = lo)) as [->|].
  - by rewrite Hb.
  - destruct (body lo st) as [st1|]; [|done]. simpl. apply IH; [lia|done].
Qed.

Lemma initCompressed_inv s s' :
  fresh s → initCompressed s = Some s' →
  let n := length (fPrevV s) in
  ∃ fc cf cv csym cprev ce fr cl,
    for_loop (map_body (edges (fGraphV s))) 0 n (replicate n (-1), [])
      = Some (fc, cf) ∧
    for_loop (link_body s fc cf) 0 (length cf)
      ([], replicate (length cf) (-1), replicate (length cf) (-1))
      = Some (cv, csym, cprev) ∧
    for_loop (edge_body cprev) 1 (length cprev - 1)
      (replicate (length cf) []) = Some ce ∧
    for_loop (measure_body s fc cf) 1 (length cprev - 1)
      (replicate n (-1)%R, replicate (length cprev) 0%R) = Some (fr, cl) ∧
    s' = mkSkeleton (fGraphV s) (fPrevV s) (fSymV s) (mkGraph cv ce) cprev
           csym (replicate (length cf) false) (replicate (length cf) false)
           cf fc fr cl (jointNames s).
Proof.
  intros (Hcg & Hcp & Hcs & Hcf & Hfc & Hfr & Hcl). unfold initCompressed.
  rewrite Hcg, Hcp, Hcs, Hcf, Hfc, Hfr, Hcl. simpl. rewrite !resize_nil.
  intros ([fc cf] & H1 & H)%bind_Some. simpl in H.
  rewrite !resize_nil in H.
  apply bind_Some in H as ([[cv csym] cprev] & H2 & H). simpl in H.
  apply bind_Some in H as (ce & H3 & H).
  rewrite !resize_nil in H.
  apply bind_Some in H as ([fr cl] & H4 & H). simpl in H.
  injection H as <-. rewrite length_replicate.
  by exists fc, cf, cv, csym, cprev, ce, fr, cl.
Qed.

(** ** The compressed skeleton as a whole *)

Lemma rank_lt es a c : 0 ≤ a < c → retained es a → rank es a < rank es c.
Proof.
  intros Ha Hr. rewrite (rank_cf_spec es c).
  destruct (cf_spec_split es c a Ha Hr) as [rest ->].
  rewrite size_app, <- rank_cf_spec.
  pose proof (size_nonneg rest). change (size (a :: rest)) with
    (Z.of_nat (S (length rest))). unfold size in *. lia.
Qed.

Lemma rank_le es a c : 0 ≤ a ≤ c → rank es a ≤ rank es c.
Proof.
  intros Ha. unfold rank.
  replace c with (a + (c - a)) by lia.
  rewrite seqZ_app, filter_app, size_app by lia.
  pose proof (size_nonneg
    (filter (retained es) (seqZ (0 + a) (c - a)))). lia.
Qed.

(** X1. The two index maps are inverse to each other: [fcMapV] has one
    entry per full joint, the root is compressed joint 0, every compressed
    joint [j] satisfies [fcMapV[cfMapV[j]] = j], every non-negative entry
    [fcMapV[i] = j] satisfies [cfMapV[j] = i], and [cfMapV] is strictly
    increasing. *)
Theorem index_maps_are_inverse s :
  full_ok s →
  ∃ s', initCompressed s = Some s' ∧
    size (fcMapV s') = size (fPrevV s) ∧
    (0 < size (fPrevV s) → at_ (cfMapV s') 0 = Some 0) ∧
    (∀ j c, at_ (cfMapV s') j = Some c → at_ (fcMapV s') c = Some j) ∧
    (∀ i j, at_ (fcMapV s') i = Some j → 0 ≤ j →
            at_ (cfMapV s') j = Some i) ∧
    (∀ j j' c c', at_ (cfMapV s') j = Some c → at_ (cfMapV s') j' = Some c' →
                  j < j' → c < c').
Proof.
  intros Hok. destruct (initCompressed_spec s Hok) as (s' & Hs' & Hc).
  exists s'. split; [done|]. rewrite (cp_fc s s' Hc), (cp_cf s s' Hc).
  pose proof (size_nonneg (fPrevV s)) as Hn.
  split; [by apply size_fc_spec|]. split; [apply at_cf_root|]. split; [|split].
  - intros j c (Hr & Hcn & Hrk)%at_cf_inv.
    rewrite at_fc_spec by done. rewrite decide_True by done. by rewrite Hrk.
  - intros i j Hi Hj. pose proof (at_range _ _ _ Hi) as Hir.
    rewrite size_fc_spec in Hir by done. rewrite at_fc_spec in Hi by done.
    case_decide as Hr; injection Hi as <-; [|lia]. by apply at_cf_rank.
  - intros j j' c c' (Hr & Hcn & <-)%at_cf_inv (Hr' & Hcn' & <-)%at_cf_inv Hlt.
    destruct (decide (c < c')) as [|Hge]; [done|].
    pose proof (rank_le (edges (fGraphV s)) c' c ltac:(lia)). lia.
Qed.

Lemma index_maps_are_inverse_witness :
  ∃ s', initCompressed human_full = Some s' ∧
    size (fcMapV s') = size (fPrevV human_full) ∧
    (0 < size (fPrevV human_full) → at_ (cfMapV s') 0 = Some 0) ∧
    (∀ j c, at_ (cfMapV s') j = Some c → at_ (fcMapV s') c = Some j) ∧
    (∀ i j, at_ (fcMapV s') i = Some j → 0 ≤ j →
            at_ (cfMapV s') j = Some i) ∧
    (∀ j j' c c', at_ (cfMapV s') j = Some c → at_ (cfMapV s') j' = Some c' →
                  j < j' → c < c').
Proof.
  apply (index_maps_are_inverse human_full).
  apply built_ok. vm_compute. reflexivity.
Defined.

(** X2. The compressed skeleton is again a tree in which a parent comes
    before its children: [cPrevV] has one entry per compressed joint, the
    entry of compressed joint 0 is -1, and the entry of every other
    compressed joint [j] is a compressed joint below [j]. *)
Theorem compressed_parents_come_first s :
  full_ok s →
  ∃ s', initCompressed s = Some s' ∧
    size (cPrevV s') = size (cfMapV s') ∧
    (0 < size (fPrevV s) → at_ (cPrevV s') 0 = Some (-1)) ∧
    ∀ j p, 0 < j → at_ (cPrevV s') j = Some p → 0 ≤ p < j.
Proof.
  intros Hok. destruct (initCompressed_spec s Hok) as (s' & Hs' & Hc).
  exists s'. split; [done|].
  destruct (cp_sizes s s' Hc) as (Hsz & _).
  split; [done|]. split; [intros Hn; by apply (cp_root s s' Hc)|].
  intros j p Hj Hp. pose proof (at_range _ _ _ Hp) as Hr. rewrite Hsz in Hr.
  destruct (at_is_Some (cfMapV s') j) as [c Hcj]; [done|].
  destruct (cp_prev s s' Hc j c Hj Hcj) as (l & a & Hch & Hp').
  rewrite Hp in Hp'. injection Hp' as ->.
  rewrite (cp_cf s s' Hc) in Hcj. apply at_cf_inv in Hcj as (_ & _ & <-).
  destruct (chain_facts s c l a Hok Hch) as (Ha & Hra & _).
  split; [apply rank_nonneg|]. by apply rank_lt.
Qed.

Lemma compressed_parents_come_first_witness :
  ∃ s', initCompressed human_full = Some s' ∧
    size (cPrevV s') = size (cfMapV s') ∧
    (0 < size (fPrevV human_full) → at_ (cPrevV s') 0 = Some (-1)) ∧
    ∀ j p, 0 < j → at_ (cPrevV s') j = Some p → 0 ≤ p < j.
Proof.
  apply (compressed_parents_come_first human_full).
  apply built_ok. vm_compute. reflexivity.
Defined.

(** X3. Compression does not touch the full skeleton or the name table;
    compressed joint [j] is placed where full joint [cfMapV[j]] is; every
    compressed vector has one entry per compressed joint and
    [fcFractionV] one per full joint; and every foot and fat tag is
    false. *)
Theorem compression_keeps_full_skeleton s :
  full_ok s →
  ∃ s', initCompressed s = Some s' ∧
    fGraphV s' = fGraphV s ∧ fPrevV s' = fPrevV s ∧ fSymV s' = fSymV s ∧
    jointNames s' = jointNames s ∧
    (∀ j c, at_ (cfMapV s') j = Some c →
            at_ (verts (cGraphV s')) j = at_ (verts (fGraphV s)) c) ∧
    size (verts (cGraphV s')) = size (cfMapV s') ∧
    size (edges (cGraphV s')) = size (cfMapV s') ∧
    size (cSymV s') = size (cfMapV s') ∧
    size (cLengthV s') = size (cfMapV s') ∧
    size (fcFractionV s') = size (fPrevV s) ∧
    cFeetV s' = replicate (length (cfMapV s')) false ∧
    cFatV s' = replicate (length (cfMapV s')) false.
Proof.
  intros Hok. destruct (initCompressed_spec s Hok) as (s' & Hs' & Hc).
  exists s'. split; [done|].
  destruct (cp_full s s' Hc) as (? & ? & ? & ?).
  destruct (cp_sizes s s' Hc) as (? & ? & ? & ? & ?).
  destruct (cp_tags s s' Hc) as (? & ?).
  do 4 (split; [done|]). split; [|split].
  - intros j c Hcj. rewrite (cp_verts s s' Hc), at_fmap, Hcj. simpl.
    rewrite (cp_cf s s' Hc) in Hcj. apply at_cf_inv in Hcj as (_ & Hcn & _).
    destruct (at_is_Some (verts (fGraphV s)) c) as [v Hv];
      [by rewrite (ok_verts s Hok)|].
    unfold vert. by rewrite Hv.
  - by rewrite (cp_verts s s' Hc), size_fmap.
  - done.
Qed.

Lemma compression_keeps_full_skeleton_witness :
  ∃ s', initCompressed human_full = Some s' ∧
    fGraphV s' = fGraphV human_full ∧ fPrevV s' = fPrevV human_full ∧
    fSymV s' = fSymV human_full ∧
    jointNames s' = jointNames human_full ∧
    (∀ j c, at_ (cfMapV s') j = Some c →
            at_ (verts (cGraphV s')) j = at_ (verts (fGraphV human_full)) c) ∧
    size (verts (cGraphV s')) = size (cfMapV s') ∧
    size (edges (cGraphV s')) = size (cfMapV s') ∧
    size (cSymV s') = size (cfMapV s') ∧
    size (cLengthV s') = size (cfMapV s') ∧
    size (fcFractionV s') = size (fPrevV human_full) ∧
    cFeetV s' = replicate (length (cfMapV s')) false ∧
    cFatV s' = replicate (length (cfMapV s')) false.
Proof.
  apply (compression_keeps_full_skeleton human_full).
  apply built_ok. vm_compute. reflexivity.
Defined.

Lemma link_loop_symmetry s fc cf st :
  for_loop (link_body s fc cf) 0 (length cf)
    ([], replicate (length cf) (-1), replicate (length cf) (-1)) = Some st →
  ∀ j c q, at_ cf j = Some c → at_ (fSymV s) c = Some q →
    (q < 0 → at_ st.1.2 j = Some (-1)) ∧
    (0 ≤ q → at_ st.1.2 j = at_ fc q).
Proof.
  intros Hloop.
  set (Inv := λ i (st : list PVector3 * list Z * list Z),
       size st.1.2 = size cf ∧
       (∀ j, i ≤ j < size cf → at_ st.1.2 j = Some (-1)) ∧
       ∀ j c q, 0 ≤ j < i → at_ cf j = Some c → at_ (fSymV s) c = Some q →
         (q < 0 → at_ st.1.2 j = Some (-1)) ∧
         (0 ≤ q → at_ st.1.2 j = at_ fc q)).
  assert (Inv (0 + Z.of_nat (length cf)) st) as (_ & _ & H).
  2:{ intros j c q Hc Hq. apply (H j c q); [|done|done].
      apply at_range in Hc. unfold size in Hc. lia. }
  apply (for_loop_post Inv (link_body s fc cf) 0 (length cf)
           ([], replicate (length cf) (-1), replicate (length cf) (-1)) st);
    [| |exact Hloop]; unfold Inv; clear Inv.
  - simpl. rewrite size_replicate. split; [done|]. split; [|intros; lia].
    intros j Hj. apply at_Some. split; [lia|]. apply lookup_replicate_2.
    unfold size in Hj. lia.
  - intros i [[cv csym] cprev] st1 Hi (Hs & Hrest & Hdone). simpl in *.
    unfold link_body.
    intros (c & Hc & (v & Hv & (q & Hq & (csym' & Hsym &
             (cprev' & Hprev & [= <-])%bind_Some)%bind_Some)%bind_Some)
             %bind_Some)%bind_Some.
    simpl. assert (0 ≤ i < size cf) as Hi' by (unfold size; lia).
    destruct (decide (0 ≤ q)) as [Hq0|Hq0].
    + apply bind_Some in Hsym as (m & Hm & [_ ->]%set_at_inv).
      rewrite size_insert. split; [done|]. split.
      * intros j Hj. rewrite at_insert_ne by lia. apply Hrest. lia.
      * intros j c' q' Hj Hc' Hq'. destruct (decide (j = i)) as [->|].
        -- rewrite Hc in Hc'. injection Hc' as <-.
           rewrite Hq in Hq'. injection Hq' as <-.
           split; [lia|]. intros _. rewrite Hm. apply at_insert_eq. lia.
        -- rewrite at_insert_ne by lia. apply (Hdone j c' q'); [lia|done|done].
    + injection Hsym as <-. split; [done|]. split.
      * intros j Hj. apply Hrest. lia.
      * intros j c' q' Hj Hc' Hq'. destruct (decide (j = i)) as [->|].
        -- rewrite Hc in Hc'. injection Hc' as <-.
           rewrite Hq in Hq'. injection Hq' as <-.
           split; [|lia]. intros _. apply Hrest. lia.
        -- apply (Hdone j c' q'); [lia|done|done].
Qed.

(** X4. The compressed symmetry of a compressed joint is the entry of
    [fcMapV] for the symmetry partner of its full joint: the compressed
    index of the partner when the partner is retained, -1 when the
    partner was collapsed, and -1 when the full joint has no partner. *)
Theorem compressed_symmetry_follows_partner s :
  full_ok s →
  ∃ s', initCompressed s = Some s' ∧
    ∀ j c q, at_ (cfMapV s') j = Some c → at_ (fSymV s) c = Some q →
      (q < 0 → at_ (cSymV s') j = Some (-1)) ∧
      (0 ≤ q → at_ (cSymV s') j = at_ (fcMapV s') q) ∧
      (0 ≤ q → ¬ retained (edges (fGraphV s)) q →
               at_ (cSymV s') j = Some (-1)).
Proof.
  intros Hok. destruct (initCompressed_spec s Hok) as (s' & Hs' & Hc).
  exists s'. split; [done|].
  destruct (initCompressed_inv s s' (ok_fresh s Hok) Hs')
    as (fc & cf & cv & csym & cprev & ce & fr & cl & _ & H2 & _ & _ & ->).
  simpl. intros j c q Hcj Hq.
  destruct (link_loop_symmetry s fc cf _ H2 j c q Hcj Hq) as [Hneg Hpos].
  simpl in *. split; [done|]. split; [done|]. intros Hq0 Hnr.
  rewrite (Hpos Hq0). pose proof (cp_fc s _ Hc) as Hfc. simpl in Hfc.
  rewrite Hfc. pose proof (ok_sym s Hok _ _ Hq).
  rewrite at_fc_spec by lia. by rewrite decide_False.
Qed.

Lemma compressed_symmetry_follows_partner_witness :
  ∃ s', initCompressed human_full = Some s' ∧
    ∀ j c q, at_ (cfMapV s') j = Some c → at_ (fSymV human_full) c = Some q →
      (q < 0 → at_ (cSymV s') j = Some (-1)) ∧
      (0 ≤ q → at_ (cSymV s') j = at_ (fcMapV s') q) ∧
      (0 ≤ q → ¬ retained (edges (fGraphV human_full)) q →
               at_ (cSymV s') j = Some (-1)).
Proof.
  apply (compressed_symmetry_follows_partner human_full).
  apply built_ok. vm_compute. reflexivity.
Defined.

(** ** Fractions *)




Lemma chain_continues s c l a x k :
  full_ok s → chain s c l a → x ∈ l → at_ (fPrevV s) x = Some k →
  ¬ retained (edges (fGraphV s)) k → k ∈ l.
Proof.
  intros Hok H. induction H as [c p Hp H0 Hr|c p l a Hp Hr H IH];
    intros Hx Hk Hnr.
  - apply list_elem_of_singleton in Hx as ->. congruence.
  - apply elem_of_cons in Hx as [->|Hx].
    + rewrite Hp in Hk. injection Hk as <-. right.
      destruct (chain_facts s p l a Hok H) as (_ & _ & l' & -> & _). by left.
    + right. by apply IH.
Qed.

Lemma collapsed_has_child s k :
  full_ok s → 0 ≤ k < size (fPrevV s) →
  ¬ retained (edges (fGraphV s)) k →
  ∃ x, k < x < size (fPrevV s) ∧ at_ (fPrevV s) x = Some k.
Proof.
  intros Hok Hk Hr.
  assert (k ≠ 0) as Hk0 by (intros ->; apply Hr, retained_root).
  destruct (at_is_Some (edges (fGraphV s)) k) as [e He];
    [by rewrite (ok_edges s Hok)|].
  assert (size e = 2) as He2.
  { destruct (decide (size e = 2)); [done|]. exfalso. apply Hr. right.
    rewrite He. simpl. congruence. }
  pose proof (ok_deg s Hok _ _ He) as Hd. rewrite decide_False in Hd by done.
  destruct (children (fPrevV s) k) as [|x ch] eqn:Ech.
  { unfold size in Hd, He2. simpl in Hd. lia. }
  assert (x ∈ children (fPrevV s) k) as [Hx Hp]%children_bound
    by (rewrite Ech; by left).
  exists x. split; [|done]. pose proof (prev_lt s _ _ Hok Hp). lia.
Qed.

(** Every joint other than the root lies on the chain of a retained
    joint. *)
Lemma joint_on_a_chain s k :
  full_ok s → 0 < k < size (fPrevV s) →
  ∃ c l a, retained (edges (fGraphV s)) c ∧ 0 < c < size (fPrevV s) ∧
           chain s c l a ∧ k ∈ l.
Proof.
  intros Hok Hk.
  remember (size (fPrevV s) - k) as d eqn:Hd.
  assert (0 ≤ d) as Hd0 by lia. revert k Hk Hd. pattern d.
  apply Zlt_0_ind; [|done]. clear d Hd0. intros d IH _ k Hk Hd.
  destruct (decide (retained (edges (fGraphV s)) k)) as [Hr|Hr].
  - destruct (chain_exists s k Hok Hk) as (l & a & Hch).
    exists k, l, a. do 3 (split; [done|]).
    destruct (chain_facts s k l a Hok Hch) as (_ & _ & l' & -> & _). by left.
  - destruct (collapsed_has_child s k Hok ltac:(lia) Hr) as (x & Hx & Hp).
    destruct (IH (size (fPrevV s) - x) ltac:(lia) x ltac:(lia) eq_refl)
      as (c & l & a & Hrc & Hc & Hch & Hin).
    exists c, l, a. do 3 (split; [done|]).
    by eapply chain_continues.
Qed.

(** X5. On a skeleton that the builder's contract gives (the joints a
    tree rooted at joint 0, the invariant [full_ok]), every joint other
    than the root lies on the chain of exactly one compressed bone, and
    when the length stored for that bone is not zero, the joint's entry of
    [fcFractionV] is the length of its own segment over that length. *)
Theorem every_joint_has_one_bone s :
  full_ok s →
  ∃ s', initCompressed s = Some s' ∧
    ∀ k, 0 < k < size (fPrevV s) →
      ∃ c j l a len,
        retained (edges (fGraphV s)) c ∧ chain s c l a ∧ k ∈ l ∧
        at_ (fcMapV s') c = Some j ∧ 0 < j ∧
        at_ (cLengthV s') j = Some len ∧
        (len ≠ 0%R →
         at_ (fcFractionV s') k = Some (seglen s k / len)%R) ∧
        ∀ c' l' a', retained (edges (fGraphV s)) c' → chain s c' l' a' →
                    k ∈ l' → c' = c.
Proof.
  intros Hok. destruct (initCompressed_spec s Hok) as (s' & Hs' & Hc).
  exists s'. split; [done|]. intros k Hk.
  destruct (joint_on_a_chain s k Hok Hk) as (c & l & a & Hr & Hcr & Hch & Hin).
  pose proof (retained_rank_pos _ _ c Hcr Hr) as Hj.
  pose proof (at_cf_rank _ (size (fPrevV s)) c ltac:(lia) Hr) as Hcf.
  rewrite <- (cp_cf s s' Hc) in Hcf.
  destruct (cp_len s s' Hc _ c l a Hj Hcf Hch) as [Hlen Hfr].
  exists c, (rank (edges (fGraphV s)) c), l, a, (Rsum (seglen s <$> l)).
  rewrite (cp_fc s s' Hc). rewrite at_fc_spec by lia.
  rewrite decide_True by done. do 6 (split; [done|]).
  split; [intros _; by apply Hfr|]. intros c' l' a' Hr' Hch' Hin'.
  by eapply (chains_disjoint s c' l' a' c l a k).
Qed.

Lemma every_joint_has_one_bone_witness :
  ∃ s', initCompressed human_full = Some s' ∧
    ∀ k, 0 < k < size (fPrevV human_full) →
      ∃ c j l a len,
        retained (edges (fGraphV human_full)) c ∧
        chain human_full c l a ∧ k ∈ l ∧
        at_ (fcMapV s') c = Some j ∧ 0 < j ∧
        at_ (cLengthV s') j = Some len ∧
        (len ≠ 0%R →
         at_ (fcFractionV s') k = Some (seglen human_full k / len)%R) ∧
        ∀ c' l' a', retained (edges (fGraphV human_full)) c' →
                    chain human_full c' l' a' → k ∈ l' → c' = c.
Proof.
  apply (every_joint_has_one_bone human_full).
  apply built_ok. vm_compute. reflexivity.
Defined.



(** ** Calls that compression does not survive *)

Lemma map_loop_general es (n : nat) (fc0 cf0 : list Z) :
  Z.of_nat n ≤ size es → size fc0 = Z.of_nat n →
  ∃ fc, for_loop (map_body es) 0 n (fc0, cf0)
        = Some (fc, cf0 ++ cf_spec es (Z.of_nat n)).
Proof.
  intros Hn Hs.
  destruct (for_loop_inv
    (λ i (st : list Z * list Z),
       size st.1 = Z.of_nat n ∧ st.2 = cf0 ++ cf_spec es i)
    (map_body es) 0 n (fc0, cf0)) as ([fc cf] & Hl & _ & Hcf).
  - simpl. split; [done|]. by rewrite app_nil_r.
  - intros i [fc cf] Hi [Hsz Hcf]. simpl in *. subst cf. unfold map_body.
    destruct (at_is_Some es i) as [e He]; [lia|]. rewrite He. simpl.
    rewrite cf_spec_snoc by lia.
    assert (retained es i ↔ ¬ (size e = 2 ∧ i ≠ 0)) as Hret.
    { unfold retained. rewrite He. simpl. split.
      - intros [->|H] [? ?]; [done|]. apply H. by f_equal.
      - intros H. destruct (decide (i = 0)); [by left|right].
        intros [= ?]. tauto. }
    case_decide as Hd.
    + rewrite decide_False by tauto. eexists. split; [done|].
      simpl. by rewrite app_nil_r.
    + rewrite decide_True by tauto. rewrite set_at_Some by lia. simpl.
      eexists. split; [done|]. simpl. rewrite size_insert.
      by rewrite app_assoc.
  - simpl in Hcf. rewrite Z.add_0_l in Hcf. subst cf. by exists fc.
Qed.

Lemma find_retained_no_joint prev fc fuel :
  find_retained prev fc fuel (-1) = None.
Proof. by destruct fuel. Qed.

(** The second loop stops at a compressed joint, other than the first,
    whose full joint has no parent: it reads [fcMapV[-1]]. *)
Lemma link_body_no_parent s fc cf i c st :
  at_ cf i = Some c → 0 < i → at_ (fPrevV s) c = Some (-1) →
  link_body s fc cf i st = None.
Proof.
  intros Hc Hi Hp. destruct st as [[cv csym] cprev]. unfold link_body.
  rewrite Hc. simpl. destruct (at_ (verts (fGraphV s)) c); [|done]. simpl.
  destruct (at_ (fSymV s) c) as [q|]; [|done]. simpl.
  destruct (if decide (0 ≤ q) then _ else _); [|done]. simpl.
  rewrite decide_True by done. rewrite Hp. simpl.
  by rewrite find_retained_no_joint.
Qed.

(** X7. Compression cannot be repeated: on a skeleton that has joints, a
    second call of [initCompressed] appends the retained joints to
    [cfMapV] again, takes the root for a joint with a parent and reads
    [fcMapV[-1]], outside the vector. *)
Theorem compression_cannot_be_repeated s :
  full_ok s → fPrevV s ≠ [] →
  ∃ s', initCompressed s = Some s' ∧ initCompressed s' = None.
Proof.
  intros Hok Hne. destruct (initCompressed_spec s Hok) as (s' & Hs' & Hc).
  exists s'. split; [done|].
  assert (0 < size (fPrevV s)) as Hn.
  { destruct (fPrevV s); [done|]. unfold size. simpl. lia. }
  destruct (cp_full s s' Hc) as (Hg & Hp & Hsym & _).
  unfold initCompressed. rewrite Hg, Hp.
  destruct (map_loop_general (edges (fGraphV s)) (length (fPrevV s))
    (resize (length (fPrevV s)) (-1) (fcMapV s')) (cfMapV s'))
    as (fc & ->).
  { by rewrite (ok_edges s Hok). }
  { unfold size. by rewrite length_resize. }
  simpl. change (Z.of_nat (length (fPrevV s))) with (size (fPrevV s)).
  rewrite <- (cp_cf s s' Hc).
  pose proof (cp_root s s' Hc Hn) as [Hr0 _].
  pose proof (at_range _ _ _ Hr0) as Hm.
  destruct (cp_sizes s s' Hc) as (Hsz & _). rewrite Hsz in Hm.
  rewrite (for_loop_fails _ 0 _ _ (size (cfMapV s'))); [done| |].
  - rewrite length_app. unfold size in *. lia.
  - intros st. apply (link_body_no_parent _ _ _ _ 0).
    + apply at_Some. split; [lia|]. unfold size. rewrite Nat2Z.id.
      rewrite lookup_app_r, Nat.sub_diag by lia.
      pose proof (at_cf_root (edges (fGraphV s)) _ Hn) as H0.
      rewrite <- (cp_cf s s' Hc) in H0. by apply at_Some in H0 as [_ ?].
    + lia.
    + rewrite Hp. destruct (at_is_Some (fPrevV s) 0) as [p H0]; [lia|].
      by rewrite (ok_root s Hok p H0) in H0.
Qed.

Lemma compression_cannot_be_repeated_witness :
  ∃ s', initCompressed human_full = Some s' ∧ initCompressed s' = None.
Proof.
  apply (compression_cannot_be_repeated human_full).
  - apply built_ok. vm_compute. reflexivity.
  - vm_compute. discriminate.
Defined.

(** X8. A second root cannot be compressed: after [makeJoint] with an
    empty parent name on a skeleton that already has joints,
    [initCompressed] retains the new joint, looks for its parent and
    reads [fcMapV[-1]], outside the vector. *)
Theorem second_root_breaks_compression name pos s :
  full_ok s → fPrevV s ≠ [] →
  ∃ s1, makeJoint name pos "" s = Some s1 ∧
    at_ (fPrevV s1) (size (fPrevV s)) = Some (-1) ∧
    initCompressed s1 = None.
Proof.
  intros Hok Hne.
  assert (0 < size (fPrevV s)) as Hn.
  { destruct (fPrevV s); [done|]. unfold size. simpl. lia. }
  unfold makeJoint. rewrite decide_True by done. eexists. split; [done|].
  simpl. split; [apply at_app_size|].
  destruct (ok_fresh s Hok) as (Hcg & Hcp & Hcs & Hcf & Hfc & Hfr & Hcl).
  unfold initCompressed. simpl.
  rewrite Hcg, Hcp, Hcs, Hcf, Hfc, Hfr, Hcl. simpl. rewrite !resize_nil.
  rewrite (ok_syms s Hok), <- (ok_edges s Hok), resize_succ.
  set (es := edges (fGraphV s) ++ [[]]).
  rewrite map_loop_spec.
  2:{ unfold es. rewrite length_app, size_app, size_singleton. simpl.
      pose proof (ok_edges s Hok) as He. unfold size in *. lia. }
  simpl. set (n1 := Z.of_nat (length (fPrevV s ++ [-1]))).
  assert (n1 = size (fPrevV s) + 1) as Hn1
    by (unfold n1, size; rewrite length_app; simpl; lia).
  assert (retained es (size (fPrevV s))) as Hret.
  { right. unfold es. rewrite <- (ok_edges s Hok), at_app_size. done. }
  pose proof (retained_rank_pos es n1 (size (fPrevV s)) ltac:(lia) Hret) as Hj.
  pose proof (at_cf_rank es n1 (size (fPrevV s)) ltac:(lia) Hret) as Hcfj.
  pose proof (at_range _ _ _ Hcfj) as Hjr.
  rewrite (for_loop_fails _ 0 _ _ (rank es (size (fPrevV s)))); [done| |].
  - change (size (cf_spec es n1))
      with (Z.of_nat (length (cf_spec es n1))) in Hjr. lia.
  - intros st. apply (link_body_no_parent _ _ _ _ (size (fPrevV s)));
      [done|done|]. simpl. apply at_app_size.
Qed.

Lemma second_root_breaks_compression_witness :
  ∃ s1, makeJoint "stray" (mkVec 1 1 1) "" line3 = Some s1 ∧
    at_ (fPrevV s1) (size (fPrevV line3)) = Some (-1) ∧
    initCompressed s1 = None.
Proof.
  apply (second_root_breaks_compression "stray" (mkVec 1 1 1) line3).
  - apply built_ok. vm_compute. reflexivity.
  - vm_compute. discriminate.
Defined.

(** ** Tags *)

Lemma set_at_negative {A} (v : list A) i x : i < 0 → set_at v i x = None.
Proof. intros Hi. unfold set_at. case_decide; [lia|done]. Qed.

(** X9. After compression, [setFoot] and [setFat] with the name of a
    retained joint set the tag of the compressed joint of that name and
    nothing else: the other tags stay false, and the rest of the skeleton
    and the name table stay as they are. *)
Theorem tags_mark_the_named_compressed_joint name i s :
  full_ok s → jointNames s !! name = Some i →
  retained (edges (fGraphV s)) i →
  ∃ t c foot fat,
    initCompressed s = Some t ∧
    at_ (fcMapV t) i = Some c ∧ at_ (cfMapV t) c = Some i ∧
    setFoot name t = Some foot ∧
    cFeetV foot = <[Z.to_nat c := true]> (replicate (length (cfMapV t)) false) ∧
    cFatV foot = cFatV t ∧ untagged_part foot = untagged_part t ∧
    jointNames foot = jointNames t ∧
    setFat name t = Some fat ∧
    cFatV fat = <[Z.to_nat c := true]> (replicate (length (cfMapV t)) false) ∧
    cFeetV fat = cFeetV t ∧ untagged_part fat = untagged_part t ∧
    jointNames fat = jointNames t.
Proof.
  intros Hok Hname Hr. destruct (initCompressed_spec s Hok) as (t & Ht & Hc).
  pose proof (ok_names s Hok _ _ Hname) as Hi.
  pose proof (at_cf_rank _ (size (fPrevV s)) i Hi Hr) as Hcf.
  pose proof (at_range _ _ _ Hcf) as Hcr.
  destruct (cp_full s t Hc) as (_ & _ & _ & Hn).
  destruct (cp_tags s t Hc) as (Hfeet & Hfat).
  assert (at_ (fcMapV t) i = Some (rank (edges (fGraphV s)) i)) as Hfc.
  { rewrite (cp_fc s t Hc), at_fc_spec by done. by rewrite decide_True. }
  rewrite <- (cp_cf s t Hc) in Hcf, Hcr.
  exists t, (rank (edges (fGraphV s)) i). unfold setFoot, setFat.
  rewrite Hn, (index_name_known _ _ _ Hname), Hfc. simpl.
  rewrite !set_at_Some
    by (rewrite ?Hfeet, ?Hfat, size_replicate; unfold size in Hcr; lia).
  eexists _, _. do 3 (split; [done|]). simpl.
  split; [by rewrite Hfeet|]. do 4 (split; [done|]).
  split; [by rewrite Hfat|]. done.
Qed.

Lemma tags_mark_the_named_compressed_joint_witness :
  ∃ t c foot fat,
    initCompressed human_full = Some t ∧
    at_ (fcMapV t) 7 = Some c ∧ at_ (cfMapV t) c = Some 7 ∧
    setFoot "lfoot" t = Some foot ∧
    cFeetV foot = <[Z.to_nat c := true]> (replicate (length (cfMapV t)) false) ∧
    cFatV foot = cFatV t ∧ untagged_part foot = untagged_part t ∧
    jointNames foot = jointNames t ∧
    setFat "lfoot" t = Some fat ∧
    cFatV fat = <[Z.to_nat c := true]> (replicate (length (cfMapV t)) false) ∧
    cFeetV fat = cFeetV t ∧ untagged_part fat = untagged_part t ∧
    jointNames fat = jointNames t.
Proof.
  apply (tags_mark_the_named_compressed_joint "lfoot" 7 human_full).
  - apply built_ok. vm_compute. reflexivity.
  - vm_compute. reflexivity.
  - right. vm_compute. discriminate.
Defined.

(** X10. [setFoot] and [setFat] fail outside their domain: before
    compression, whatever the name, they index the empty [fcMapV]; after
    compression, with the name of a collapsed joint, they index the tag
    vector at -1. *)
Theorem tags_fail_on_collapsed_joints name i s :
  full_ok s → jointNames s !! name = Some i →
  ¬ retained (edges (fGraphV s)) i →
  (∀ any, setFoot any s = None ∧ setFat any s = None) ∧
  ∃ t, initCompressed s = Some t ∧ at_ (fcMapV t) i = Some (-1) ∧
       setFoot name t = None ∧ setFat name t = None.
Proof.
  intros Hok Hname Hr. split.
  - intros any. destruct (ok_fresh s Hok) as (_ & _ & _ & _ & Hfc & _).
    unfold setFoot, setFat. destruct (index_name _ any) as [k names].
    rewrite Hfc. unfold at_. case_decide; by rewrite ?lookup_nil.
  - destruct (initCompressed_spec s Hok) as (t & Ht & Hc).
    pose proof (ok_names s Hok _ _ Hname) as Hi.
    destruct (cp_full s t Hc) as (_ & _ & _ & Hn).
    assert (at_ (fcMapV t) i = Some (-1)) as Hfc.
    { rewrite (cp_fc s t Hc), at_fc_spec by done. by rewrite decide_False. }
    exists t. split; [done|]. split; [done|]. unfold setFoot, setFat.
    rewrite Hn, (index_name_known _ _ _ Hname), Hfc.
    cbn [mbind option_bind]. by rewrite !set_at_negative by lia.
Qed.

Lemma tags_fail_on_collapsed_joints_witness :
  (∀ any, setFoot any human_full = None ∧ setFat any human_full = None) ∧
  ∃ t, initCompressed human_full = Some t ∧ at_ (fcMapV t) 5 = Some (-1) ∧
       setFoot "lknee" t = None ∧ setFat "lknee" t = None.
Proof.
  apply (tags_fail_on_collapsed_joints "lknee" 5 human_full).
  - apply built_ok. vm_compute. reflexivity.
  - vm_compute. reflexivity.
  - intros [H|H]; [discriminate|]. apply H. vm_compute. reflexivity.
Defined.

(** ** What the builder keeps *)

Lemma exec_all_snoc cs c s :
  exec_all (cs ++ [c]) s = exec_all cs s ≫= exec c.
Proof. unfold exec_all. by rewrite fmap_app, foldl_app. Qed.

Lemma makeSymmetric_inv name1 name2 s s' :
  makeSymmetric name1 name2 s = Some s' →
  fGraphV s' = fGraphV s ∧ fPrevV s' = fPrevV s ∧
  ∃ i1 i2 names1,
    index_name (jointNames s) name1 = (i1, names1) ∧
    index_name names1 name2 = (i2, jointNames s') ∧
    0 ≤ Z.max i1 i2 < size (fSymV s) ∧
    fSymV s' = <[Z.to_nat (Z.max i1 i2) := Z.min i1 i2]> (fSymV s).
Proof.
  unfold makeSymmetric.
  destruct (index_name (jointNames s) name1) as [i1 names1] eqn:E1.
  destruct (index_name names1 name2) as [i2 names2] eqn:E2.
  case_decide as Hgt;
    intros (sym & [Hin ->]%set_at_inv & [= <-])%bind_Some; simpl;
    (split; [done|]); (split; [done|]); exists i1, i2, names1;
    (split; [done|]); (split; [done|]).
  - rewrite Z.max_l, Z.min_r by lia. done.
  - rewrite Z.max_r, Z.min_l by lia. done.
Qed.

(** The facts that every sequence of builder calls keeps. *)
Lemma exec_all_keeps cs s :
  exec_all cs emptySkeleton = Some s →
  verts (fGraphV s) = (λ pos, vscale pos (1 / 2)) <$> authored cs ∧
  (∀ k v, jointNames s !! k = Some v → 0 ≤ v) ∧
  ∀ i q, at_ (fSymV s) i = Some q → -1 ≤ q ≤ i.
Proof.
  revert s. induction cs as [|c cs IH] using rev_ind; intros s.
  - intros [= <-]. simpl. split; [done|]. split.
    + intros k v. by rewrite lookup_empty.
    + intros i q H. apply at_range in H. unfold size in H. simpl in H. lia.
  - rewrite exec_all_snoc. intros (s0 & H0 & Hc)%bind_Some.
    destruct (IH s0 H0) as (Hv & Hn & Hs). unfold authored in *.
    rewrite omap_app, fmap_app. destruct c as [name pos previous|name1 name2];
      simpl in Hc |- *.
    + destruct (makeJoint_inv _ _ _ _ _ Hc)
        as (-> & -> & prev & names' & _ & -> & Hidx).
      split; [by rewrite Hv|]. split.
      * assert (∀ k v, <[name:=size (fSymV s0)]> (jointNames s0) !! k = Some v
                       → 0 ≤ v) as Hn1.
        { intros k v. rewrite lookup_insert.
          destruct (decide (name = k)) as [_|_]; [|apply Hn].
          intros [= <-]. apply size_nonneg. }
        case_decide as Hp.
        -- destruct Hidx as [_ ->]. done.
        -- intros k v Hk.
           apply index_name_lookup in Hidx as (_ & _ & Hnames).
           destruct (Hnames k v Hk) as [H|[_ ->]]; [by eapply Hn1|done].
      * intros i q H. pose proof (at_range _ _ _ H) as Hr.
        rewrite size_app, size_singleton in Hr.
        destruct (decide (i = size (fSymV s0))) as [->|].
        -- rewrite at_app_size in H. injection H as <-.
           pose proof (size_nonneg (fSymV s0)). lia.
        -- rewrite at_app_l in H by lia. by apply Hs.
    + destruct (makeSymmetric_inv _ _ _ _ Hc)
        as (-> & _ & i1 & i2 & names1 & E1 & E2 & Hr & ->).
      rewrite app_nil_r. split; [done|].
      pose proof (index_name_lookup _ _ _ _ E1) as (_ & Ho1 & Hn1).
      pose proof (index_name_lookup _ _ _ _ E2) as (_ & Ho2 & Hn2).
      assert (∀ k v, names1 !! k = Some v → 0 ≤ v) as Hnn1.
      { intros k v [H|[_ ->]]%Hn1; [by eapply Hn|done]. }
      split.
      * intros k v [H|[_ ->]]%Hn2; [by eapply Hnn1|done].
      * assert (0 ≤ i1) as Hi1.
        { destruct Ho1 as [H|[_ ->]]; [by eapply Hn|done]. }
        assert (0 ≤ i2) as Hi2.
        { destruct Ho2 as [H|[_ ->]]; [by eapply Hnn1|done]. }
        intros i q H. destruct (decide (i = Z.max i1 i2)) as [->|].
        -- rewrite at_insert_eq in H by done. injection H as <-. lia.
        -- rewrite at_insert_ne in H by lia. by apply Hs.
Qed.



(** X12. Whatever the builder calls, as long as they complete: the joints
    are stored at half the positions given to [makeJoint], in the order
    of the calls, and an entry of [fSymV] is -1 or the index of a joint
    that does not come after the entry's own joint. *)
Theorem builder_halves_positions_and_orders_symmetry cs s :
  exec_all cs emptySkeleton = Some s →
  verts (fGraphV s) = (λ pos, vscale pos (1 / 2)) <$> authored cs ∧
  ∀ i q, at_ (fSymV s) i = Some q → -1 ≤ q ≤ i.
Proof. intros H. by destruct (exec_all_keeps cs s H) as (? & _ & ?). Qed.

Lemma builder_halves_positions_and_orders_symmetry_witness :
  verts (fGraphV human_full)
    = (λ pos, vscale pos (1 / 2)) <$> authored human_calls ∧
  ∀ i q, at_ (fSymV human_full) i = Some q → -1 ≤ q ≤ i.
Proof.
  apply (builder_halves_positions_and_orders_symmetry human_calls human_full).
  vm_compute. reflexivity.
Defined.

(** X13. [makeJoint] enters the new name in the name table before it looks
    the parent up: a joint created with its own name as the parent name
    becomes its own parent, with itself twice in its adjacency list,
    whether or not the name was in use before. *)
Theorem joint_named_as_its_own_parent name pos s :
  sized s → name ≠ "" →
  ∃ s', makeJoint name pos name s = Some s' ∧
    fPrevV s' = fPrevV s ++ [size (fSymV s)] ∧
    at_ (edges (fGraphV s')) (size (fSymV s))
      = Some [size (fSymV s); size (fSymV s)] ∧
    jointNames s' !! name = Some (size (fSymV s)).
Proof.
  intros [He Hn] Hne. unfold makeJoint. rewrite decide_False by done.
  rewrite (index_name_known _ _ (size (fSymV s)))
    by apply lookup_insert_eq.
  rewrite <- He, resize_succ.
  pose proof (size_nonneg (edges (fGraphV s))) as Hnn.
  rewrite (push_at_Some _ _ _ []) by apply at_app_size. simpl.
  rewrite (push_at_Some _ _ _ [size (edges (fGraphV s))])
    by (apply at_insert_eq; rewrite size_app, size_singleton; lia).
  simpl. eexists. split; [done|]. simpl. split; [done|]. split.
  - apply at_insert_eq. rewrite size_insert, size_app, size_singleton. lia.
  - apply lookup_insert_eq.
Qed.

Lemma joint_named_as_its_own_parent_witness :
  ∃ s', makeJoint "loop" (mkVec 0 0 0) "loop" line3 = Some s' ∧
    fPrevV s' = fPrevV line3 ++ [size (fSymV line3)] ∧
    at_ (edges (fGraphV s')) (size (fSymV line3))
      = Some [size (fSymV line3); size (fSymV line3)] ∧
    jointNames s' !! "loop" = Some (size (fSymV line3)).
Proof.
  apply (joint_named_as_its_own_parent "loop" (mkVec 0 0 0) line3).
  - split; [vm_compute; reflexivity|].
    apply (ok_names line3). apply built_ok. vm_compute. reflexivity.
  - discriminate.
Defined.

(** ** Files *)

Lemma read_joint_short scan dflt line s :
  (length line < 5)%nat → read_joint scan dflt line s = Some s.
Proof.
  intros Hl. destruct line as [|? [|? [|? [|? [|? ?]]]]]; try done.
  simpl in Hl. lia.
Qed.

Lemma read_joint_take scan dflt line s :
  read_joint scan dflt (take 5 line) s = read_joint scan dflt line s.
Proof. by destruct line as [|? [|? [|? [|? [|? ?]]]]]. Qed.

(** X14. [FileSkeleton] skips every line of fewer than five words and
    ignores the words after the fifth: the result, diagnostic output
    included, is that of the file with the short lines removed and the
    other lines cut to five words. *)
Theorem FileSkeleton_skips_short_lines scan dflt filename lines :
  FileSkeleton scan dflt filename (Some lines)
  = FileSkeleton scan dflt filename
      (Some (take 5 <$> filter (λ line, 5 ≤ length line)%nat lines)).
Proof.
  simpl. f_equal. f_equal. unfold read_joints. generalize (Some emptySkeleton).
  induction lines as [|line lines IH]; intros acc; [done|].
  simpl. rewrite filter_cons. case_decide as Hl.
  - rewrite fmap_cons. simpl. rewrite <- IH. f_equal.
    destruct acc as [s|]; [|done]. simpl. by rewrite read_joint_take.
  - rewrite <- IH. f_equal. destruct acc as [s|]; [|done]. simpl.
    apply read_joint_short. lia.
Qed.

Lemma file_calls_make_joints scan dflt lines :
  Forall (λ c, ∃ name pos previous, c = MakeJoint name pos previous)
    (omap (file_call scan dflt) lines).
Proof.
  apply Forall_forall. intros c (line & _ & Hc)%list_elem_of_omap.
  destruct line as [|? [|? [|? [|? [|? ?]]]]]; try done.
  injection Hc as <-. eauto.
Qed.

Lemma joints_only_no_symmetry cs s :
  Forall (λ c, ∃ name pos previous, c = MakeJoint name pos previous) cs →
  exec_all cs emptySkeleton = Some s →
  ∀ i q, at_ (fSymV s) i = Some q → q = -1.
Proof.
  revert s. induction cs as [|c cs IH] using rev_ind; intros s Hall.
  - intros [= <-] i q H. apply at_range in H. unfold size in H.
    simpl in H. lia.
  - apply Forall_app in Hall as [Hcs Hc]. apply Forall_singleton in Hc
      as (name & pos & previous & ->).
    rewrite exec_all_snoc. intros (s0 & H0 & Hm)%bind_Some. simpl in Hm.
    destruct (makeJoint_inv _ _ _ _ _ Hm) as (_ & -> & _).
    intros i q H. pose proof (at_range _ _ _ H) as Hr.
    rewrite size_app, size_singleton in Hr.
    destruct (decide (i = size (fSymV s0))) as [->|].
    + rewrite at_app_size in H. by injection H.
    + rewrite at_app_l in H by lia. by eapply IH.
Qed.

(** X15. A file whose lines follow the builder's contract (the first joint
    line has the parent "-1", every later one names a parent other than
    the joint itself) is read to the end and compressed, nothing is
    written to the diagnostic output, there is one joint per line of five
    words or more, and the skeleton has no symmetry and no tags: every
    entry of [fSymV] and [cSymV] is -1 and every tag is false. *)
Theorem well_formed_file_gives_plain_skeleton scan dflt filename lines :
  follows_contract emptySkeleton (omap (file_call scan dflt) lines) = true →
  ∃ s', FileSkeleton scan dflt filename (Some lines) = ([], Some s') ∧
    verts (fGraphV s') = omap (parsed_point scan dflt) lines ∧
    (∀ i q, at_ (fSymV s') i = Some q → q = -1) ∧
    (∀ j q, at_ (cSymV s') j = Some q → q = -1) ∧
    cFeetV s' = replicate (length (cfMapV s')) false ∧
    cFatV s' = replicate (length (cfMapV s')) false.
Proof.
  intros H.
  destruct (follows_contract_ok _ _ emptySkeleton_ok H) as (s1 & H1 & Hok).
  destruct (initCompressed_spec s1 Hok) as (s' & Hs' & Hc).
  exists s'. simpl. rewrite read_joints_exec_all, H1. simpl. rewrite Hs'.
  split; [done|].
  destruct (cp_full s1 s' Hc) as (Hg & _ & Hsym & _).
  destruct (cp_tags s1 s' Hc) as (Hfeet & Hfat).
  pose proof (joints_only_no_symmetry _ s1
                (file_calls_make_joints scan dflt lines) H1) as Hno.
  split.
  { rewrite Hg. destruct (read_joints_spec scan dflt lines emptySkeleton)
      as (s2 & H2 & _ & Hv).
    - split; [done|]. intros k i. simpl. by rewrite lookup_empty.
    - rewrite read_joints_exec_all, H1 in H2. injection H2 as <-. done. }
  split; [by rewrite Hsym|]. split; [|done].
  intros j q Hq. pose proof (at_range _ _ _ Hq) as Hr.
  destruct (cp_sizes s1 s' Hc) as (_ & Hsz & _). rewrite Hsz in Hr.
  destruct (at_is_Some (cfMapV s') j) as [c Hcj]; [done|].
  pose proof Hcj as Hcj'. rewrite (cp_cf s1 s' Hc) in Hcj'.
  apply at_cf_inv in Hcj' as (_ & Hcn & _).
  destruct (at_is_Some (fSymV s1) c) as [p Hp];
    [by rewrite (ok_syms s1 Hok)|].
  pose proof (Hno c p Hp) as ->.
  destruct (initCompressed_inv s1 s' (ok_fresh s1 Hok) Hs')
    as (fc & cf & cv & csym & cprev & ce & fr & cl & _ & H2 & _ & _ & ->).
  simpl in *.
  destruct (link_loop_symmetry s1 fc cf _ H2 j c (-1) Hcj Hp) as [Hneg _].
  simpl in Hneg. rewrite Hneg in Hq by lia. by injection Hq.
Qed.

Lemma well_formed_file_gives_plain_skeleton_witness :
  ∃ s', FileSkeleton toy_scan (mkVec 0 0 0) "line3.skel"
          (Some [["a"; "0"; "0"; "0"; "-1"]; ["b"; "1"; "0"; "0"; "a"]; [];
                 ["c"; "3"; "0"; "0"; "b"]]) = ([], Some s') ∧
    verts (fGraphV s') = omap (parsed_point toy_scan (mkVec 0 0 0))
          [["a"; "0"; "0"; "0"; "-1"]; ["b"; "1"; "0"; "0"; "a"]; [];
           ["c"; "3"; "0"; "0"; "b"]] ∧
    (∀ i q, at_ (fSymV s') i = Some q → q = -1) ∧
    (∀ j q, at_ (cSymV s') j = Some q → q = -1) ∧
    cFeetV s' = replicate (length (cfMapV s')) false ∧
    cFatV s' = replicate (length (cfMapV s')) false.
Proof.
  apply (well_formed_file_gives_plain_skeleton toy_scan (mkVec 0 0 0)
           "line3.skel").
  vm_compute. reflexivity.
Defined.

(** ** Scaling, composed *)

Lemma vscale_vscale v f g : vscale (vscale v f) g = vscale v (f * g).
Proof. destruct v. unfold vscale. simpl. f_equal; ring. Qed.

Lemma vscale_one v : vscale v 1 = v.
Proof. destruct v. unfold vscale. simpl. f_equal; ring. Qed.

(** X16. Scalings compose: scaling by [f] and then by [g] gives the same
    skeleton as scaling once by [f * g], and scaling by 1 changes
    nothing. *)
Theorem scalings_compose f g s :
  size (cLengthV s) = size (verts (cGraphV s)) →
  scale f s ≫= scale g = scale (f * g) s ∧ scale 1 s = Some s.
Proof.
  intros Hs. rewrite !scale_eq by done. simpl.
  rewrite scale_eq by (simpl; by rewrite !size_fmap).
  destruct s as [[fv fe] ? ? [cv ce] ? ? ? ? ? ? ? cl ?].
  unfold scaled. simpl. rewrite <- !list_fmap_compose. split.
  - do 2 f_equal; [f_equal| f_equal |]; apply list_fmap_ext; intros ? x _;
      simpl; by rewrite ?vscale_vscale, ?Rmult_assoc.
  - do 2 f_equal; [f_equal| f_equal |];
      (etrans; [|apply list_fmap_id]); apply list_fmap_ext; intros ? x _;
      simpl; rewrite ?vscale_one; try done. ring.
Qed.

Lemma scalings_compose_witness :
  scale 2 human_compressed ≫= scale 3 = scale (2 * 3) human_compressed ∧
  scale 1 human_compressed = Some human_compressed.
Proof.
  apply (scalings_compose 2 3 human_compressed). vm_compute. reflexivity.
Defined.







(** ** The built-in templates *)

Ltac run_template :=
  split; [by vm_compute|];
  eexists _, _, _; split; [vm_compute; reflexivity|];
  split; [vm_compute; reflexivity|];
  split; [vm_compute; reflexivity|];
  split; vm_compute; reflexivity.

(** X18. Each of the four built-in template constructors runs to its end:
    its [makeJoint] and [makeSymmetric] calls keep the joints a tree rooted
    at joint 0, [initCompressed] completes, and every [setFoot] and
    [setFat] names a joint that compression retained, so no tag is written
    out of range. *)
Theorem templates_complete :
  completes human_calls HumanSkeleton ∧ completes quad_calls QuadSkeleton ∧
  completes horse_calls HorseSkeleton ∧
  completes centaur_calls CentaurSkeleton.
Proof. split; [|split; [|split]]; run_template. Qed.

(** X19. [HorseSkeleton] differs from [QuadSkeleton] by the two heel
    joints, which compression collapses: the horse has two more full
    joints, the heels have no compressed joint, and the two compressed
    skeletons have the same parents, symmetry partners, feet and fat
    joints. *)
Theorem horse_compresses_to_the_quad_shape :
  ∃ q h,
    QuadSkeleton = Some q ∧ HorseSkeleton = Some h ∧
    size (fPrevV h) = size (fPrevV q) + 2 ∧
    (∀ name, name ∈ ["lhheel"; "rhheel"] →
       jointNames q !! name = None ∧
       ∃ i, jointNames h !! name = Some i ∧ at_ (fcMapV h) i = Some (-1)) ∧
    compressed_shape h = compressed_shape q.
Proof.
  eexists _, _. split; [vm_compute; reflexivity|].
  split; [vm_compute; reflexivity|].
  split; [by vm_compute|]. split; [|by vm_compute].
  intros name Hin. rewrite !elem_of_cons in Hin.
  destruct Hin as [->|[->|Hin]]; [| |by apply elem_of_nil in Hin];
    (split; [by vm_compute|]); eexists; split; vm_compute; reflexivity.
Qed.

(** X20. [CentaurSkeleton] declares "lhheel" and "rhheel" symmetric,
    although it adds no joint of either name.  Both names are entered in
    the name table for joint 0, no joint is added for them, and the root
    becomes its own symmetric partner, in the full skeleton and in the
    compressed one.  In the other three templates the root has no
    partner. *)
Theorem centaur_root_is_its_own_partner :
  (∃ s, CentaurSkeleton = Some s ∧
     jointNames s !! "lhheel" = Some 0 ∧ jointNames s !! "rhheel" = Some 0 ∧
     size (fPrevV s) = size (authored centaur_calls) ∧
     at_ (fSymV s) 0 = Some 0 ∧ at_ (cSymV s) 0 = Some 0) ∧
  ∀ T, T ∈ [HumanSkeleton; QuadSkeleton; HorseSkeleton] →
    ∃ s, T = Some s ∧ at_ (fSymV s) 0 = Some (-1) ∧
         at_ (cSymV s) 0 = Some (-1).
Proof.
  split.
  - eexists. split; [vm_compute; reflexivity|]. by vm_compute.
  - intros T Hin. rewrite !elem_of_cons in Hin.
    destruct Hin as [->|[->|[->|Hin]]]; [| | |by apply elem_of_nil in Hin];
      (eexists; split; [vm_compute; reflexivity|]); by vm_compute.
Qed.
